(** * ConstantFlowAgreementV1Helper: flow lifecycle calls and flow listing

    A shallow embedding of [js-sdk/ConstantFlowAgreementV1Helper.js] and the
    properties of its flow reconciliation ([getLatestFlows], [listFlows]),
    of [deleteFlow] and of [getFlow]. *)

From Stdlib Require Import ZArith Ascii List Sorted Permutation.
From stdpp Require Import base tactics decidable option numbers list sorting strings pretty.

(** * JavaScript values *)

Module JS.

(** An ordinary object used as a dictionary: its own string-keyed
    properties, listed in the order in which they were created.
    Assigning to an existing property keeps its place. *)
Abbreviation object V := (list (string * V)) (only parsing).

Definition empty {V} : object V := [].

Fixpoint get {V} (k : string) (o : object V) : option V :=
  match o with
  | [] => None
  | (k', v) :: o' => if decide (k = k') then Some v else get k o'
  end.

(** [o[k] = v] *)
Fixpoint set {V} (k : string) (v : V) (o : object V) : object V :=
  match o with
  | [] => [(k, v)]
  | (k', v') :: o' =>
      if decide (k = k') then (k, v) :: o' else (k', v') :: set k v o'
  end.

Definition keys {V} (o : object V) : list string := fst <$> o.

(** The value of a string of decimal digits, read from the left. *)
Fixpoint digits (s : string) (acc : N) : option N :=
  match s with
  | EmptyString => Some acc
  | String c s' =>
      match Ascii.is_nat c with
      | Some d => digits s' (10 * acc + N.of_nat d)%N
      | None => None
      end
  end.

(** [k] as an array index: a canonical decimal numeral below 2^32 - 1. *)
Definition array_index (k : string) : option N :=
  match k with
  | EmptyString => None
  | _ =>
      match digits k 0 with
      | Some n =>
          if decide (pretty n = k ∧ (n < 2 ^ 32 - 1)%N) then Some n else None
      | None => None
      end
  end.

Fixpoint insert_index {V} (p : N * V) (l : list (N * V)) : list (N * V) :=
  match l with
  | [] => [p]
  | q :: l' =>
      if decide (p.1 ≤ q.1)%N then p :: q :: l' else q :: insert_index p l'
  end.

Definition indexed {V} (o : object V) : list (N * V) :=
  foldr insert_index []
    (omap (λ kv, (λ n, (n, kv.2)) <$> array_index kv.1) o).

Definition named {V} (o : object V) : object V :=
  filter (λ kv, array_index kv.1 = None) o.

(** [Object.values(o)]: property enumeration lists the array-index keys
    first, in ascending numeric order, and the remaining string keys after
    them in creation order. *)
Definition values {V} (o : object V) : list V :=
  (snd <$> indexed o) ++ (snd <$> named o).

(** The integer a decimal numeral denotes: an optional minus sign
    followed by at least one digit. *)
Definition decimal (s : string) : option Z :=
  match s with
  | EmptyString => None
  | String "-"%char EmptyString => None
  | String "-"%char s' => (λ n, - Z.of_N n)%Z <$> digits s' 0
  | _ => Z.of_N <$> digits s 0
  end.

(** A string is truthy unless it is empty. *)
Definition truthy (s : string) : bool :=
  match s with EmptyString => false | _ => true end.

End JS.

(** Big numbers as the ledger bindings return them ([BN]): unbounded
    integers; [toString()] is the decimal numeral. *)
Module BN.
Definition t : Type := Z.
Definition toString (x : t) : string := pretty x.
End BN.

(** * Events and flows *)

(** The arguments of a [FlowUpdated] event. *)
Record FlowUpdated : Type := {
  token : string;
  sender : string;
  receiver : string;
  flowRate : BN.t;
}.

(** Modelled from the spec: a log entry as [getPastEvents] returns it, the
    decoded arguments together with the entry's total-order position, its
    block number and its index within the block.  The helper reads [args]
    only. *)
Record Event : Type := {
  args : FlowUpdated;
  blockNumber : N;
  logIndex : N;
}.

Global Instance FlowUpdated_eq_dec : EqDecision FlowUpdated.
Proof. solve_decision. Defined.
Global Instance Event_eq_dec : EqDecision Event.
Proof. solve_decision. Defined.

(** An entry of [inFlows] / [outFlows]. *)
Module Flow.
Record t : Type := mk {
  sender : string;
  receiver : string;
  flowRate : string;
}.
End Flow.

(** * getLatestFlows *)

(** [i.args.sender + ":" + i.args.receiver] *)
Definition flowKey (i : Event) : string :=
  (sender (args i) +:+ ":") +:+ receiver (args i).

(** The accumulator of the [reduce]: starting from [acc], each event is
    stored under its key, in batch order. *)
Definition reduceInto (acc : JS.object Event) (flows : list Event)
  : JS.object Event :=
  fold_left (λ acc i, JS.set (flowKey i) i acc) flows acc.

(** [i.args.flowRate.toString() != "0"] *)
Definition isOpen (i : Event) : Prop := BN.toString (flowRate (args i)) ≠ "0".

Global Instance isOpen_dec i : Decision (isOpen i).
Proof. unfold isOpen. apply _. Defined.

Definition getLatestFlows (flows : list Event) : list Event :=
  filter isOpen (JS.values (reduceInto JS.empty flows)).

(** The event the reduction keeps for a grouping key. *)
Definition winner (k : string) (flows : list Event) : option Event :=
  JS.get k (reduceInto JS.empty flows).

(** The projection [listFlows] applies to each surviving event. *)
Definition toFlow (f : Event) : Flow.t :=
  Flow.mk (sender (args f)) (receiver (args f))
          (BN.toString (flowRate (args f))).

(** The accumulator's invariant: no key twice, every event stored under
    its own key. *)
Definition keyed (o : JS.object Event) : Prop :=
  NoDup (JS.keys o) ∧ Forall (λ kv, flowKey kv.2 = kv.1) o.

(** * The reduction with its accumulator in the object store *)

(** [getLatestFlows] once more, with what the pure reading leaves implicit:
    the literal [{}] allocates a fresh object in the store, the callback
    assigns into that object in place and returns the same reference, and
    [Object.values] reads the object back. *)
Module Store.
Abbreviation heap := (list (list (string * Event))) (only parsing).

Definition S (A : Type) : Type := heap → A * heap.

Definition ret {A} (a : A) : S A := λ h, (a, h).

Definition bind {A B} (m : S A) (f : A → S B) : S B :=
  λ h, let '(a, h') := m h in f a h'.

(** [{}] *)
Definition newObject : S nat := λ h, (length h, h ++ [JS.empty]).

(** [acc[k] = v] *)
Definition assign (ref : nat) (k : string) (v : Event) : S unit :=
  λ h, (tt, alter (JS.set k v) ref h).

(** [Object.values(acc)] *)
Definition ownValues (ref : nat) : S (list Event) :=
  λ h, (JS.values (default JS.empty (h !! ref)), h).

(** [flows.reduce((acc, i) => { acc[key(i)] = i; return acc; }, init)] *)
Fixpoint reduce (flows : list Event) (acc : nat) : S nat :=
  match flows with
  | [] => ret acc
  | i :: flows' =>
      bind (bind (assign acc (flowKey i) i) (λ _, ret acc)) (reduce flows')
  end.

Definition getLatestFlows (flows : list Event) : S (list Event) :=
  bind newObject (λ init,
  bind (reduce flows init) (λ acc,
  bind (ownValues acc) (λ vs,
  ret (filter isOpen vs)))).
End Store.

(** * Total-order position and the reduction the listing is meant to compute *)

(** A flow key is the ordered pair (sender, receiver). *)
Definition FlowKey : Type := string * string.

Definition keyOf (i : Event) : FlowKey := (sender (args i), receiver (args i)).

Definition flowPair (f : Flow.t) : FlowKey := (Flow.sender f, Flow.receiver f).

(** Modelled from the spec: the total order of positions, block number
    first, index within the block second. *)
Definition pos_le (a b : Event) : Prop :=
  (blockNumber a < blockNumber b
   ∨ (blockNumber a = blockNumber b ∧ logIndex a ≤ logIndex b))%N.

Global Instance pos_le_dec a b : Decision (pos_le a b).
Proof. unfold pos_le. apply _. Defined.

(** A batch in the order of the log: every event is at or before each
    event that follows it. *)
Definition chronological (flows : list Event) : Prop :=
  StronglySorted pos_le flows.

Fixpoint has_colon (s : string) : bool :=
  match s with
  | EmptyString => false
  | String c s' => if decide (c = ":"%char) then true else has_colon s'
  end.

(** No account identifier of the batch contains a colon. *)
Definition colonFree (flows : list Event) : Prop :=
  Forall (λ i, has_colon (sender (args i)) = false
               ∧ has_colon (receiver (args i)) = false) flows.

(** The reduction in the words of the specification: group by flow key,
    keep per group the event with the greatest position (of two events at
    the same position, the one met later), drop a group whose kept event
    has rate zero. *)
Definition later (best : option Event) (i : Event) : option Event :=
  match best with
  | Some b => if decide (pos_le b i) then Some i else Some b
  | None => Some i
  end.

Definition latestByPosition (key : FlowKey) (flows : list Event) : option Event :=
  foldl (λ best i, if decide (keyOf i = key) then later best i else best)
        None flows.

Definition keepOpen (w : option Event) : list Event :=
  match w with
  | Some e => if decide (flowRate (args e) = 0%Z) then [] else [e]
  | None => []
  end.

Definition reconciled (key : FlowKey) (flows : list Event) : list Event :=
  keepOpen (latestByPosition key flows).

(** The entries of an output that belong to a flow key. *)
Definition entriesFor (key : FlowKey) (out : list Event) : list Event :=
  filter (λ e, keyOf e = key) out.

(** The last event of a flow key in batch order. *)
Definition lastOf (key : FlowKey) (flows : list Event) : option Event :=
  last (filter (λ i, keyOf i = key) flows).

(** Last-write-wins by position, and shuffle invariance, as properties of
    one batch. *)
Definition lastWriteWins (flows : list Event) : Prop :=
  ∀ key, entriesFor key (getLatestFlows flows) = reconciled key flows.

Definition shuffleInvariant (flows : list Event) : Prop :=
  ∀ flows', flows' ≡ₚ flows →
    ∀ key, entriesFor key (getLatestFlows flows')
           = entriesFor key (getLatestFlows flows).

(** Closure exclusion with the winning event taken by position, as a
    property of one batch. *)
Definition closedKeysAbsent (flows : list Event) : Prop :=
  ∀ key e, latestByPosition key flows = Some e → flowRate (args e) = 0%Z →
    entriesFor key (getLatestFlows flows) = [].

(** * Numbers and dates *)

(** Numbers are IEEE-754 doubles.  Only integral values arise in the helper;
    an integral double is represented by the integer it denotes.  [round]
    sends an integer to the nearest integer with a 53-bit significand, ties
    to the even significand.  Magnitudes beyond the largest finite double
    are kept as integers: their only consumer, [Date.new], rejects them as it
    rejects an infinity. *)
Module Num.
Definition round (z : Z) : Z :=
  let a := Z.abs z in
  if (a <? 2 ^ 53)%Z then z
  else
    let e := (Z.log2 a - 52)%Z in
    let q := (a / 2 ^ e)%Z in
    let r := (a mod 2 ^ e)%Z in
    let half := (2 ^ (e - 1))%Z in
    let q' := if ((half <? r) || ((r =? half) && Z.odd q))%Z
              then (q + 1)%Z else q in
    (Z.sgn z * (q' * 2 ^ e))%Z.

(** [Number(s)] for a decimal integer numeral [s], which is what
    [BN.toString] produces. *)
Definition ofDecimal (s : string) : option Z := round <$> JS.decimal s.

(** [x * y] *)
Definition mul (x y : Z) : Z := round (x * y).
End Num.

(** A [Date] holds milliseconds since the epoch, within 8.64e15 of it;
    outside that range the date is invalid. *)
Module Date.
Inductive t : Type := Valid (ms : Z) | Invalid.

Definition new (ms : option Z) : t :=
  match ms with
  | Some n => if decide (Z.abs n ≤ 8640000000000000)%Z then Valid n else Invalid
  | None => Invalid
  end.

(** The date of the instant [s] seconds after the epoch. *)
Definition ofSeconds (s : Z) : t := new (Some (s * 1000)%Z).
End Date.

(** * The ledger gateway *)

(** The outcome of awaiting a promise. *)
Inductive result (A : Type) : Type :=
| Resolved (a : A)
| Rejected (reason : string).
Arguments Resolved {A} a.
Arguments Rejected {A} reason.

Module Filter.
Record t : Type := mk {
  token : string;
  sender : option string;
  receiver : option string;
}.
End Filter.

Module Options.
Record t : Type := mk {
  fromBlock : N;
  toBlock : string;
  filter : Filter.t;
}.
End Options.

(** A method of the agreement contract with its arguments, before ABI
    encoding. *)
Inductive MethodCall : Type :=
| CreateFlowCall (superToken receiver flowRate ctx : string)
| UpdateFlowCall (superToken receiver flowRate ctx : string)
| DeleteFlowCall (superToken sender receiver ctx : string).

(** What the helper asks of the ledger. *)
Inductive request : Type :=
| CallAgreement (agreement callData from : string)
| GetFlow (superToken sender receiver : string)
| GetNetFlow (superToken account : string)
| GetPastEvents (eventName : string) (options : Options.t).

(** An asynchronous computation: it extends the sequence of requests sent
    to the ledger so far and resolves or rejects. *)
Definition M (A : Type) : Type := list request → list request * result A.

Global Instance M_ret : MRet M := λ A a log, (log, Resolved a).

Global Instance M_bind : MBind M := λ A B f m log,
  match m log with
  | (log', Resolved a) => f a log'
  | (log', Rejected reason) => (log', Rejected reason)
  end.

(** Awaiting a computation that sends nothing to the ledger. *)
Definition await {A} (r : result A) : M A := λ log, (log, r).

(** Sending a request and awaiting the ledger's answer. *)
Definition send {A} (q : request) (answer : result A) : M A :=
  λ log, (log ++ [q], answer).

(** The raw answer of the agreement's [getFlow]. *)
Module Raw.
Record t : Type := mk {
  timestamp : BN.t;
  flowRate : BN.t;
  deposit : BN.t;
  owedDeposit : BN.t;
}.
End Raw.

(** The sanitized answer of the helper's [getFlow]. *)
Module Info.
Record t : Type := mk {
  timestamp : Date.t;
  flowRate : string;
  deposit : string;
  owedDeposit : string;
}.
End Info.

(** The object [listFlows] returns; a field that was never assigned is
    absent. *)
Module Listing.
Record t : Type := mk {
  inFlows : option (list Flow.t);
  outFlows : option (list Flow.t);
}.
End Listing.

(** The framework object the helper is constructed with ([this._sf] and
    [this._cfa]): the parameter normalizers, the agreement's address and ABI
    encoder, and the ledger's answers to the helper's requests. *)
Record Framework : Type := {
  normalizeTokenParam : string → result string;
  normalizeAddressParam : string → result string;
  normalizeFlowRateParam : string → result string;
  cfa_address : string;
  encodeABI : MethodCall → string;
  Tx : Type;
  host_callAgreement : string → string → string → result Tx;
  cfa_getFlow : string → string → string → result Raw.t;
  cfa_getNetFlow : string → string → result BN.t;
  cfa_getPastEvents : string → Options.t → result (list Event);
}.

(** [createFlow({superToken, sender, receiver, flowRate})].  Console output
    is not modelled, here and below. *)
Definition createFlow (sf : Framework)
    (superToken sender receiver flowRate : string) : M (Tx sf) :=
  superTokenNorm ← await (normalizeTokenParam sf superToken);
  senderNorm ← await (normalizeAddressParam sf sender);
  receiverNorm ← await (normalizeAddressParam sf receiver);
  flowRateNorm ← await (normalizeFlowRateParam sf flowRate);
  let callData :=
    encodeABI sf (CreateFlowCall superTokenNorm receiverNorm flowRateNorm "0x") in
  send (CallAgreement (cfa_address sf) callData senderNorm)
       (host_callAgreement sf (cfa_address sf) callData senderNorm).

(** [updateFlow({superToken, sender, receiver, flowRate})] *)
Definition updateFlow (sf : Framework)
    (superToken sender receiver flowRate : string) : M (Tx sf) :=
  superTokenNorm ← await (normalizeTokenParam sf superToken);
  senderNorm ← await (normalizeAddressParam sf sender);
  receiverNorm ← await (normalizeAddressParam sf receiver);
  flowRateNorm ← await (normalizeFlowRateParam sf flowRate);
  let callData :=
    encodeABI sf (UpdateFlowCall superTokenNorm receiverNorm flowRateNorm "0x") in
  send (CallAgreement (cfa_address sf) callData senderNorm)
       (host_callAgreement sf (cfa_address sf) callData senderNorm).

(** [deleteFlow({superToken, sender, receiver, by})]; [by_] is [None] when
    the caller leaves [by] out. *)
Definition deleteFlow (sf : Framework)
    (superToken sender receiver : string) (by_ : option string) : M (Tx sf) :=
  superTokenNorm ← await (normalizeTokenParam sf superToken);
  senderNorm ← await (normalizeAddressParam sf sender);
  receiverNorm ← await (normalizeAddressParam sf receiver);
  byNorm ← match by_ with
           | Some b =>
               if JS.truthy b then
                 n ← await (normalizeAddressParam sf b);
                 mret (if JS.truthy n then n else senderNorm)
               else mret senderNorm
           | None => mret senderNorm
           end;
  let callData :=
    encodeABI sf (DeleteFlowCall superTokenNorm senderNorm receiverNorm "0x") in
  send (CallAgreement (cfa_address sf) callData byNorm)
       (host_callAgreement sf (cfa_address sf) callData byNorm).

(** The arrow function [getFlow] applies to the raw answer. *)
Definition sanitize (r : Raw.t) : Info.t :=
  Info.mk
    (Date.new ((λ n, Num.mul n 1000)
                 <$> Num.ofDecimal (BN.toString (Raw.timestamp r))))
    (BN.toString (Raw.flowRate r))
    (BN.toString (Raw.deposit r))
    (BN.toString (Raw.owedDeposit r)).

Definition getFlow (sf : Framework)
    (superToken sender receiver : string) : M Info.t :=
  superTokenNorm ← await (normalizeTokenParam sf superToken);
  senderNorm ← await (normalizeAddressParam sf sender);
  receiverNorm ← await (normalizeAddressParam sf receiver);
  result ← send (GetFlow superTokenNorm senderNorm receiverNorm)
                (cfa_getFlow sf superTokenNorm senderNorm receiverNorm);
  mret (sanitize result).

(** [getNetFlow({superToken, account})] *)
Definition getNetFlow (sf : Framework) (superToken account : string) : M BN.t :=
  superTokenNorm ← await (normalizeTokenParam sf superToken);
  accountNorm ← await (normalizeAddressParam sf account);
  send (GetNetFlow superTokenNorm accountNorm)
       (cfa_getNetFlow sf superTokenNorm accountNorm).

(** [this._sf.agreements.cfa.getPastEvents("FlowUpdated", options)] *)
Definition pastEvents (sf : Framework) (options : Options.t) : M (list Event) :=
  send (GetPastEvents "FlowUpdated" options)
       (cfa_getPastEvents sf "FlowUpdated" options).

Definition inOptions (superTokenNorm accountNorm : string) : Options.t :=
  Options.mk 0 "latest" (Filter.mk superTokenNorm None (Some accountNorm)).

Definition outOptions (superTokenNorm accountNorm : string) : Options.t :=
  Options.mk 0 "latest" (Filter.mk superTokenNorm (Some accountNorm) None).

(** [listFlows({superToken, account, onlyInFlows, onlyOutFlows})]; a flag
    the caller leaves out is [false]. *)
Definition listFlows (sf : Framework) (superToken account : string)
    (onlyInFlows onlyOutFlows : bool) : M Listing.t :=
  superTokenNorm ← await (normalizeTokenParam sf superToken);
  accountNorm ← await (normalizeAddressParam sf account);
  let result := Listing.mk None None in
  result ← (if negb onlyOutFlows then
              flows ← pastEvents sf (inOptions superTokenNorm accountNorm);
              mret (Listing.mk (Some (toFlow <$> getLatestFlows flows))
                               (Listing.outFlows result))
            else mret result);
  result ← (if negb onlyInFlows then
              flows ← pastEvents sf (outOptions superTokenNorm accountNorm);
              mret (Listing.mk (Listing.inFlows result)
                               (Some (toFlow <$> getLatestFlows flows)))
            else mret result);
  mret result.

(** * Notions used to state further properties of the helper *)

(** Adding a key to the keys met so far: a key already met keeps its
    place. *)
Definition addKey (seen : list string) (k : string) : list string :=
  if decide (k ∈ seen) then seen else seen ++ [k].

(** The keys of a batch in the order in which they are first met. *)
Definition firstSeen (ks : list string) : list string := foldl addKey [] ks.

(** The last event of a grouping key in batch order. *)
Definition lastWith (k : string) (flows : list Event) : option Event :=
  last (filter (λ i, flowKey i = k) flows).

(** The reason of the first rejection among awaited results, in order. *)
Fixpoint firstRejected (rs : list (result string)) : option string :=
  match rs with
  | [] => None
  | Resolved _ :: rs' => firstRejected rs'
  | Rejected reason :: _ => Some reason
  end.

(** The fetches a run of [listFlows] makes when none fails: the inbound one
    first, then the outbound one. *)
Definition fetches (onlyInFlows onlyOutFlows : bool) (t a : string) : list request :=
  (if onlyOutFlows then [] else [GetPastEvents "FlowUpdated" (inOptions t a)])
  ++ (if onlyInFlows then [] else [GetPastEvents "FlowUpdated" (outOptions t a)]).

(** The reading back of a sanitized answer: seconds from the date, numbers
    from their numerals.  Not part of the helper; it states what
    [sanitize] preserves. *)
Definition unsanitize (i : Info.t) : option Raw.t :=
  match Info.timestamp i with
  | Date.Valid ms =>
      match JS.decimal (Info.flowRate i), JS.decimal (Info.deposit i),
            JS.decimal (Info.owedDeposit i) with
      | Some f, Some d, Some o => Some (Raw.mk (ms / 1000)%Z f d o)
      | _, _, _ => None
      end
  | Date.Invalid => None
  end.

(** * Fixtures *)

(** An event of token T. *)
Definition ev (s r : string) (rate : Z) (b l : N) : Event :=
  {| args := {| token := "T"; sender := s; receiver := r; flowRate := rate |};
     blockNumber := b; logIndex := l |}.

Definition demoLog : list Event :=
  [ev "A" "B" 5 1 0; ev "C" "A" 7 2 0; ev "A" "A" 2 3 0; ev "A" "B" 0 4 0;
   ev "C" "A" 9 4 1; ev "D" "A" 4 5 0].

(** ** A ledger with a fixed event log *)

(** Modelled from the spec: [getPastEvents] keeps, in log order, the events
    that match every field the filter gives. *)
Definition matches (f : Filter.t) (i : Event) : Prop :=
  token (args i) = Filter.token f
  ∧ from_option (λ s, sender (args i) = s) True (Filter.sender f)
  ∧ from_option (λ r, receiver (args i) = r) True (Filter.receiver f).

Global Instance matches_dec f i : Decision (matches f i).
Proof.
  unfold matches.
  destruct (Filter.sender f), (Filter.receiver f); simpl; apply _.
Defined.

Definition ledger (log : list Event) : Framework := {|
  normalizeTokenParam := Resolved;
  normalizeAddressParam := Resolved;
  normalizeFlowRateParam := Resolved;
  cfa_address := "0xCFA";
  encodeABI := λ c,
    match c with
    | CreateFlowCall t r f ctx =>
        "createFlow(" +:+ t +:+ "," +:+ r +:+ "," +:+ f +:+ "," +:+ ctx +:+ ")"
    | UpdateFlowCall t r f ctx =>
        "updateFlow(" +:+ t +:+ "," +:+ r +:+ "," +:+ f +:+ "," +:+ ctx +:+ ")"
    | DeleteFlowCall t s r ctx =>
        "deleteFlow(" +:+ t +:+ "," +:+ s +:+ "," +:+ r +:+ "," +:+ ctx +:+ ")"
    end;
  Tx := string;
  host_callAgreement := λ _ _ from, Resolved ("tx from " +:+ from);
  cfa_getFlow := λ _ _ _,
    Resolved (Raw.mk 1600000000%Z 385802469135%Z 1111111111104000%Z 0%Z);
  cfa_getNetFlow := λ _ _, Resolved 0%Z;
  cfa_getPastEvents := λ _ o, Resolved (filter (matches (Options.filter o)) log);
|}.

(** A framework with a given address normalizer, agreement-call answer and
    event-log answer; its point queries are unreachable. *)
Definition framework (normalizeAddress : string → result string)
    (callAgreement : string → result string)
    (pastEvents : Options.t → result (list Event)) : Framework := {|
  normalizeTokenParam := Resolved;
  normalizeAddressParam := normalizeAddress;
  normalizeFlowRateParam := Resolved;
  cfa_address := "0xCFA";
  encodeABI := encodeABI (ledger []);
  Tx := string;
  host_callAgreement := λ _ _ from, callAgreement from;
  cfa_getFlow := λ _ _ _, Rejected "node unreachable";
  cfa_getNetFlow := λ _ _, Rejected "node unreachable";
  cfa_getPastEvents := λ _ o, pastEvents o;
|}.

(** An address normalizer that fails on one name and resolves another to
    the empty string. *)
Definition resolveName (s : string) : result string :=
  if decide (s = "nobody.eth") then Rejected "unresolved name"
  else if decide (s = "void.eth") then Resolved ""
  else Resolved s.

(** An event log whose inbound fetch answers and whose outbound fetch
    times out. *)
Definition outboundDown (o : Options.t) : result (list Event) :=
  match Filter.sender (Options.filter o) with
  | Some _ => Rejected "timeout"
  | None => Resolved (filter (matches (Options.filter o)) demoLog)
  end.

(** * Examples *)

Example ex_listing :
  toFlow <$> getLatestFlows
    [ev "A" "B" 5 1 0; ev "A" "B" 0 2 0; ev "A" "B" 3 3 0; ev "C" "B" (-7) 3 1;
     ev "D" "B" 0 4 0]
  = [Flow.mk "A" "B" "3"; Flow.mk "C" "B" "-7"].
Proof. vm_compute. reflexivity. Qed.

Example ex_unordered :
  getLatestFlows [ev "A" "B" 3 3 0; ev "A" "B" 5 1 0] = [ev "A" "B" 5 1 0]
  ∧ reconciled ("A", "B") [ev "A" "B" 3 3 0; ev "A" "B" 5 1 0] = [ev "A" "B" 3 3 0].
Proof. vm_compute. done. Qed.

(** * Properties of the object model *)

Section object_facts.
Context {V : Type}.
Implicit Types (o : JS.object V) (k : string) (v : V).

Lemma get_set k k' v o :
  JS.get k (JS.set k' v o) = if decide (k = k') then Some v else JS.get k o.
Proof.
  induction o as [|[k0 v0] o IH]; simpl.
  - repeat case_decide; congruence.
  - destruct (decide (k' = k0)) as [->|Hne]; simpl.
    + repeat case_decide; congruence.
    + rewrite IH. repeat case_decide; congruence.
Qed.

Lemma elem_of_keys_set k k' v o :
  k ∈ JS.keys (JS.set k' v o) ↔ k = k' ∨ k ∈ JS.keys o.
Proof.
  unfold JS.keys. induction o as [|[k0 v0] o IH]; simpl.
  - rewrite list_elem_of_singleton, elem_of_nil. tauto.
  - destruct (decide (k' = k0)) as [->|Hne]; simpl.
    + rewrite !elem_of_cons. tauto.
    + rewrite !elem_of_cons, IH. tauto.
Qed.

Lemma NoDup_keys_set k v o : NoDup (JS.keys o) → NoDup (JS.keys (JS.set k v o)).
Proof.
  unfold JS.keys. induction o as [|[k0 v0] o IH]; simpl; intros Hnd.
  - apply NoDup_singleton.
  - apply NoDup_cons in Hnd as [Hnin Hnd].
    destruct (decide (k = k0)) as [->|Hne]; simpl.
    + apply NoDup_cons; done.
    + apply NoDup_cons. split; [|auto].
      intros Hin. apply (elem_of_keys_set k0 k v o) in Hin as [?|?]; [congruence|].
      by apply Hnin.
Qed.

Lemma get_Some_elem_of k v o : JS.get k o = Some v → (k, v) ∈ o.
Proof.
  induction o as [|[k0 v0] o IH]; simpl; [done|].
  case_decide as Hk.
  - intros [= ->]. subst. left.
  - intros Hg. right. auto.
Qed.

Lemma elem_of_get k v o : NoDup (JS.keys o) → (k, v) ∈ o → JS.get k o = Some v.
Proof.
  unfold JS.keys. induction o as [|[k0 v0] o IH]; simpl; intros Hnd Hin.
  - by apply elem_of_nil in Hin.
  - apply NoDup_cons in Hnd as [Hnin Hnd].
    apply elem_of_cons in Hin as [[= -> ->]|Hin].
    + by rewrite decide_True.
    + rewrite decide_False; [auto|].
      intros ->. apply Hnin. by apply (list_elem_of_fmap_2 fst) in Hin.
Qed.

(** Without array-index keys, enumeration is creation order. *)
Lemma values_named o :
  Forall (λ kv, JS.array_index kv.1 = None) o → JS.values o = snd <$> o.
Proof.
  intros Hall. unfold JS.values, JS.indexed, JS.named.
  assert (omap (λ kv : string * V, (λ n, (n, kv.2)) <$> JS.array_index kv.1) o = [])
    as ->.
  { induction Hall as [|kv o Hkv _ IH]; simpl; [done|]. by rewrite Hkv. }
  assert (filter (λ kv : string * V, JS.array_index kv.1 = None) o = o) as ->.
  { induction Hall as [|kv o Hkv _ IH]; [done|].
    rewrite filter_cons_True by done. by f_equal. }
  done.
Qed.
End object_facts.

Lemma string_app_cons c (s t : string) : String c s +:+ t = String c (s +:+ t).
Proof. reflexivity. Qed.

Lemma string_app_nil_l (t : string) : "" +:+ t = t.
Proof. reflexivity. Qed.

Lemma string_app_assoc (s1 s2 s3 : string) :
  (s1 +:+ s2) +:+ s3 = s1 +:+ (s2 +:+ s3).
Proof.
  induction s1 as [|c s1 IH]; [done|].
  by rewrite !string_app_cons, IH.
Qed.

(** A key that contains a colon is not an array index. *)
Lemma digits_colon s r acc : JS.digits (s +:+ String ":"%char r) acc = None.
Proof.
  revert acc. induction s as [|c s IH]; intros acc.
  - done.
  - rewrite string_app_cons. simpl. destruct (Ascii.is_nat c); auto.
Qed.

Lemma flowKey_named i : JS.array_index (flowKey i) = None.
Proof.
  unfold flowKey, JS.array_index.
  rewrite string_app_assoc.
  change (":" +:+ receiver (args i)) with (String ":"%char (receiver (args i))).
  rewrite digits_colon. by destruct (sender (args i) +:+ _).
Qed.

Lemma toString_zero (x : BN.t) : BN.toString x = "0" ↔ x = 0%Z.
Proof.
  split; [|by intros ->].
  intros H. by apply (inj (pretty : Z → string)).
Qed.

Lemma isOpen_rate i : isOpen i ↔ flowRate (args i) ≠ 0%Z.
Proof. unfold isOpen. by rewrite toString_zero. Qed.

(** * The reduction *)

Lemma elem_of_set {V} (kv : string * V) k v (o : JS.object V) :
  kv ∈ JS.set k v o → kv = (k, v) ∨ kv ∈ o.
Proof.
  induction o as [|[k0 v0] o IH]; simpl.
  - rewrite list_elem_of_singleton. tauto.
  - case_decide; rewrite !elem_of_cons; [tauto|].
    intros [?|?]; [tauto|]. destruct IH; auto.
Qed.

Lemma keyed_empty : keyed JS.empty.
Proof. split; constructor. Qed.

Lemma keyed_set i o : keyed o → keyed (JS.set (flowKey i) i o).
Proof.
  intros [Hnd Hall]. split; [by apply NoDup_keys_set|].
  apply Forall_forall. intros kv [->|Hin]%elem_of_set; [done|].
  by apply (proj1 (Forall_forall _ _) Hall).
Qed.

Lemma keyed_reduceInto flows acc : keyed acc → keyed (reduceInto acc flows).
Proof.
  revert acc. induction flows as [|i flows IH]; intros acc Hacc; [done|].
  apply IH. by apply keyed_set.
Qed.

(** The value stored under [k] at the end is the last event of the batch
    with that key; a key the batch does not mention keeps its value. *)
Lemma get_reduceInto k flows acc :
  JS.get k (reduceInto acc flows) =
    match last (filter (λ i, flowKey i = k) flows) with
    | Some e => Some e
    | None => JS.get k acc
    end.
Proof.
  revert acc. induction flows as [|i flows IH]; intros acc; [reflexivity|].
  change (reduceInto acc (i :: flows))
    with (reduceInto (JS.set (flowKey i) i acc) flows).
  rewrite IH, filter_cons, get_set.
  destruct (last (filter _ flows)) as [e|] eqn:Hlast.
  - case_decide; [|by rewrite Hlast].
    by rewrite last_cons, Hlast.
  - apply last_None in Hlast. rewrite Hlast.
    repeat case_decide; simpl; congruence.
Qed.

Lemma winner_last k flows :
  winner k flows = last (filter (λ i, flowKey i = k) flows).
Proof.
  unfold winner. rewrite get_reduceInto. by destruct (last _).
Qed.

Lemma winner_elem_of k e flows :
  winner k flows = Some e → e ∈ flows ∧ flowKey e = k.
Proof.
  rewrite winner_last. intros Hl%last_Some_elem_of.
  apply list_elem_of_filter in Hl. tauto.
Qed.

Lemma values_reduceInto flows :
  JS.values (reduceInto JS.empty flows) = snd <$> reduceInto JS.empty flows.
Proof.
  apply values_named.
  destruct (keyed_reduceInto flows JS.empty keyed_empty) as [_ Hall].
  eapply Forall_impl; [exact Hall|]. intros [k v] Hk; simpl in *.
  rewrite <-Hk. apply flowKey_named.
Qed.

Lemma flowKey_values o : keyed o → flowKey <$> (snd <$> o) = JS.keys o.
Proof.
  intros [_ Hall]. unfold JS.keys. rewrite <-list_fmap_compose.
  by apply Forall_fmap_ext_1.
Qed.

(** An event is listed exactly when it is the winner of its key and its
    rate does not print as "0". *)
Lemma elem_of_getLatestFlows e flows :
  e ∈ getLatestFlows flows ↔ winner (flowKey e) flows = Some e ∧ isOpen e.
Proof.
  unfold getLatestFlows, winner. rewrite values_reduceInto.
  destruct (keyed_reduceInto flows JS.empty keyed_empty) as [Hnd Hall].
  rewrite list_elem_of_filter, list_elem_of_fmap. split.
  - intros [Hopen ([k v] & -> & Hin)]. split; [|done]. simpl.
    pose proof (proj1 (Forall_forall _ _) Hall _ Hin) as Hk. simpl in Hk.
    rewrite Hk. by apply elem_of_get.
  - intros [Hget Hopen]. split; [done|].
    exists (flowKey e, e). split; [done|]. by apply get_Some_elem_of.
Qed.

Lemma NoDup_flowKey_getLatestFlows flows :
  NoDup (flowKey <$> getLatestFlows flows).
Proof.
  unfold getLatestFlows. rewrite values_reduceInto.
  pose proof (keyed_reduceInto flows JS.empty keyed_empty) as Hk.
  apply (sublist_NoDup _ (flowKey <$> (snd <$> reduceInto JS.empty flows))).
  - rewrite (flowKey_values _ Hk). apply Hk.
  - apply fmap_sublist, sublist_filter.
Qed.

(** * Grouping key and flow key *)

Lemma colon_split s1 r1 s2 r2 :
  has_colon s1 = false → has_colon s2 = false →
  s1 +:+ String ":"%char r1 = s2 +:+ String ":"%char r2 → s1 = s2 ∧ r1 = r2.
Proof.
  revert s2.
  induction s1 as [|c1 s1 IH]; intros [|c2 s2]; simpl;
    rewrite ?string_app_cons, ?string_app_nil_l.
  - intros _ _ [= ->]. done.
  - case_decide as Hc; [done|]. intros _ _ [= Hc2 _]. by destruct Hc.
  - case_decide as Hc; [done|]. intros _ _ [= Hc1 _]. by destruct Hc.
  - repeat case_decide; try done. intros H1 H2 [= -> Hrest].
    destruct (IH s2 H1 H2 Hrest) as [-> ->]. done.
Qed.

Lemma flowKey_split s1 r1 s2 r2 :
  has_colon s1 = false → has_colon s2 = false →
  (s1 +:+ ":") +:+ r1 = (s2 +:+ ":") +:+ r2 → s1 = s2 ∧ r1 = r2.
Proof. rewrite !string_app_assoc. apply colon_split. Qed.

Lemma keyOf_flowKey e e' : keyOf e = keyOf e' → flowKey e = flowKey e'.
Proof. unfold keyOf, flowKey. by intros [= -> ->]. Qed.

Lemma colonFree_flowKey flows e e' :
  colonFree flows → e ∈ flows → e' ∈ flows →
  flowKey e = flowKey e' ↔ keyOf e = keyOf e'.
Proof.
  intros Hcf He He'. split; [|apply keyOf_flowKey].
  pose proof (proj1 (Forall_forall _ _) Hcf _ He) as [Hs _].
  pose proof (proj1 (Forall_forall _ _) Hcf _ He') as [Hs' _].
  intros Hk. unfold keyOf.
  by destruct (flowKey_split _ _ _ _ Hs Hs' Hk) as [-> ->].
Qed.

Section filter_facts.
Context {A : Type}.
Implicit Types (l : list A).

Lemma filter_ext_elem_of (P Q : A → Prop)
    `{!∀ x, Decision (P x), !∀ x, Decision (Q x)} l :
  (∀ x, x ∈ l → P x ↔ Q x) → filter P l = filter Q l.
Proof.
  induction l as [|a l IH]; intros Hiff; [done|].
  rewrite !filter_cons, IH by (intros; apply Hiff; by right).
  destruct (decide (P a)) as [HP|HP], (decide (Q a)) as [HQ|HQ];
    try done; exfalso; apply (Hiff a) in HP || apply (Hiff a) in HQ;
    done || by left.
Qed.

Lemma filter_none (P : A → Prop) `{!∀ x, Decision (P x)} l :
  (∀ x, x ∈ l → ¬ P x) → filter P l = [].
Proof.
  induction l as [|a l IH]; intros Hno; [done|].
  rewrite filter_cons_False by (apply Hno; by left).
  apply IH. intros x Hx. apply Hno. by right.
Qed.

(** In a list without two elements of the same key, the elements of a
    key that occurs are that one element. *)
Lemma filter_key_unique {K} `{EqDecision K} (f : A → K) l x :
  NoDup (f <$> l) → x ∈ l → filter (λ y, f y = f x) l = [x].
Proof.
  induction l as [|a l IH]; simpl; intros Hnd Hx.
  - by apply elem_of_nil in Hx.
  - apply NoDup_cons in Hnd as [Hnin Hnd].
    apply elem_of_cons in Hx as [->|Hx].
    + rewrite filter_cons_True by done. f_equal.
      apply filter_none. intros y Hy Heq. apply Hnin.
      rewrite <-Heq. by apply list_elem_of_fmap_2.
    + rewrite filter_cons_False; [by apply IH|].
      intros Heq. apply Hnin. rewrite Heq. by apply list_elem_of_fmap_2.
Qed.
End filter_facts.

(** * What the listing keeps for a flow key *)

Lemma getLatestFlows_subseteq e flows : e ∈ getLatestFlows flows → e ∈ flows.
Proof.
  intros [Hw _]%elem_of_getLatestFlows. by apply winner_elem_of in Hw as [? _].
Qed.

Lemma winner_lastOf flows w :
  colonFree flows → w ∈ flows → winner (flowKey w) flows = lastOf (keyOf w) flows.
Proof.
  intros Hcf Hw. rewrite winner_last. unfold lastOf. f_equal.
  apply filter_ext_elem_of. intros x Hx. by apply colonFree_flowKey with flows.
Qed.

(** For a batch in any order: the entry of a flow key is the last event of
    that key in the batch, unless its rate is zero. *)
Lemma entriesFor_lastOf key flows :
  colonFree flows →
  entriesFor key (getLatestFlows flows) = keepOpen (lastOf key flows).
Proof.
  intros Hcf. unfold entriesFor.
  destruct (lastOf key flows) as [w|] eqn:Hlast; simpl.
  - assert (w ∈ flows ∧ keyOf w = key) as [Hw Hkey].
    { apply last_Some_elem_of, list_elem_of_filter in Hlast. tauto. }
    assert (winner (flowKey w) flows = Some w) as Hwin.
    { rewrite winner_lastOf, Hkey by done. done. }
    rewrite (filter_ext_elem_of _ (λ e, flowKey e = flowKey w)).
    2:{ intros e He%getLatestFlows_subseteq. rewrite <-Hkey.
        symmetry. by apply colonFree_flowKey with flows. }
    case_decide as Hrate.
    + apply filter_none. intros e [Hwe Hopen]%elem_of_getLatestFlows Hk.
      rewrite Hk, Hwin in Hwe. injection Hwe as <-.
      by apply isOpen_rate in Hopen.
    + apply (filter_key_unique flowKey).
      * apply NoDup_flowKey_getLatestFlows.
      * apply elem_of_getLatestFlows. split; [done|]. by apply isOpen_rate.
  - apply last_None in Hlast. apply filter_none.
    intros e He%getLatestFlows_subseteq Hk.
    by apply (filter_nil_not_elem_of _ _ e Hlast).
Qed.

(** * Position order *)

Global Instance pos_le_refl : Reflexive pos_le.
Proof. intros a. unfold pos_le. lia. Qed.
Global Instance pos_le_trans : Transitive pos_le.
Proof. intros a b c. unfold pos_le. lia. Qed.
Global Instance pos_le_total : Total pos_le.
Proof. intros a b. unfold pos_le. lia. Qed.

Lemma latestByPosition_snoc key l x :
  latestByPosition key (l ++ [x]) =
    if decide (keyOf x = key) then later (latestByPosition key l) x
    else latestByPosition key l.
Proof. unfold latestByPosition. by rewrite foldl_app. Qed.

Lemma latestByPosition_None key flows :
  latestByPosition key flows = None → ∀ e, e ∈ flows → keyOf e ≠ key.
Proof.
  induction flows as [|x l IH] using rev_ind; intros Hnone e He.
  - by apply elem_of_nil in He.
  - rewrite latestByPosition_snoc in Hnone.
    case_decide as Hx.
    + unfold later in Hnone. by repeat case_match.
    + apply elem_of_app in He as [He|He]; [auto|].
      by apply list_elem_of_singleton in He as ->.
Qed.

(** The spec's reduction does keep a greatest event of the key, whatever
    the order of the batch. *)
Lemma latestByPosition_max key flows e :
  latestByPosition key flows = Some e →
  e ∈ flows ∧ keyOf e = key
  ∧ ∀ e', e' ∈ flows → keyOf e' = key → pos_le e' e.
Proof.
  revert e. induction flows as [|x l IH] using rev_ind; intros e Hl; [done|].
  rewrite latestByPosition_snoc in Hl.
  setoid_rewrite elem_of_app. setoid_rewrite list_elem_of_singleton.
  case_decide as Hx.
  - destruct (latestByPosition key l) as [b|] eqn:Hb; simpl in Hl.
    + destruct (IH b eq_refl) as (Hbl & Hbk & Hbmax).
      case_decide as Hle; injection Hl as <-.
      * split_and!; [auto|done|]. intros e' [He'| ->] Hk; [|done].
        by trans b; [apply Hbmax|].
      * split_and!; [auto|done|]. intros e' [He'| ->] Hk; [by apply Hbmax|].
        by destruct (total pos_le x b).
    + injection Hl as <-. split_and!; [auto|done|].
      intros e' [He'| ->] Hk; [|done].
      by destruct (latestByPosition_None key l Hb e').
  - destruct (IH e Hl) as (Hel & Hek & Hemax).
    split_and!; [auto|done|]. intros e' [He'| ->] Hk; [auto|done].
Qed.

(** On a batch in log order, the event met last is the greatest one. *)
Lemma latestByPosition_chronological key flows :
  chronological flows → latestByPosition key flows = lastOf key flows.
Proof.
  unfold chronological, lastOf.
  induction flows as [|x l IH] using rev_ind; intros Hs; [done|].
  rewrite latestByPosition_snoc, filter_app, filter_cons, filter_nil.
  pose proof (StronglySorted_app_1_l _ _ _ Hs) as Hl.
  rewrite (IH Hl). case_decide as Hx.
  - rewrite last_snoc.
    destruct (last _) as [b|] eqn:Hb; [|done]. simpl.
    rewrite decide_True; [done|].
    apply (StronglySorted_app_1_elem_of _ _ _ _ _ Hs); [|by left].
    apply last_Some_elem_of, list_elem_of_filter in Hb. tauto.
  - by rewrite app_nil_r.
Qed.

(** C1 (amended): last write wins in batch order.  For a batch whose
    account identifiers contain no colon, the output entry of a flow key is
    the last event of that key in batch order (unless its rate is zero);
    when the batch is in log order, that is the event with the greatest
    total-order position among the batch's events of the key. *)
Theorem last_write_wins_in_log_order flows key :
  colonFree flows →
  entriesFor key (getLatestFlows flows) = keepOpen (lastOf key flows)
  ∧ (chronological flows →
       entriesFor key (getLatestFlows flows) = reconciled key flows
       ∧ ∀ e, e ∈ entriesFor key (getLatestFlows flows) →
           e ∈ flows ∧ keyOf e = key
           ∧ ∀ e', e' ∈ flows → keyOf e' = key → pos_le e' e).
Proof.
  intros Hcf. split; [by apply entriesFor_lastOf|]. intros Hs.
  assert (entriesFor key (getLatestFlows flows) = reconciled key flows) as Heq.
  { unfold reconciled.
    by rewrite latestByPosition_chronological, entriesFor_lastOf. }
  split; [done|]. rewrite Heq. unfold reconciled, keepOpen.
  intros e He. destruct (latestByPosition key flows) as [w|] eqn:Hw.
  - case_decide; [by apply elem_of_nil in He|].
    apply list_elem_of_singleton in He as ->. by apply latestByPosition_max.
  - by apply elem_of_nil in He.
Qed.

Lemma last_write_wins_in_log_order_witness :
  colonFree [ev "A" "B" 5 1 0; ev "A" "B" 0 2 0; ev "A" "B" 3 3 0]
  ∧ chronological [ev "A" "B" 5 1 0; ev "A" "B" 0 2 0; ev "A" "B" 3 3 0]
  ∧ entriesFor ("A", "B")
      (getLatestFlows [ev "A" "B" 5 1 0; ev "A" "B" 0 2 0; ev "A" "B" 3 3 0])
    = reconciled ("A", "B") [ev "A" "B" 5 1 0; ev "A" "B" 0 2 0; ev "A" "B" 3 3 0].
Proof.
  assert (colonFree [ev "A" "B" 5 1 0; ev "A" "B" 0 2 0; ev "A" "B" 3 3 0])
    as Hcf by compute_done.
  assert (chronological [ev "A" "B" 5 1 0; ev "A" "B" 0 2 0; ev "A" "B" 3 3 0])
    as Hs by compute_done.
  split_and!; [done|done|].
  exact (proj1 (proj2 (last_write_wins_in_log_order _ ("A", "B") Hcf) Hs)).
Defined.

(** C1 as stated fails: on a batch that is not in log order the listing
    keeps the event met last, not the one with the greatest position, and
    a shuffle of the batch changes the entry of the key; and on a batch in
    log order two flow keys whose identifiers contain colons can share a
    grouping key, so that the later one displaces the earlier one. *)
Lemma last_write_wins_counterexample :
  ¬ lastWriteWins [ev "A" "B" 3 3 0; ev "A" "B" 5 1 0]
  ∧ ¬ shuffleInvariant [ev "A" "B" 3 3 0; ev "A" "B" 5 1 0]
  ∧ chronological [ev "a:b" "c" 5 1 0; ev "a" "b:c" 0 2 0]
  ∧ ¬ lastWriteWins [ev "a:b" "c" 5 1 0; ev "a" "b:c" 0 2 0].
Proof.
  split_and!.
  - intros H. specialize (H ("A", "B")). vm_compute in H. discriminate H.
  - intros H.
    specialize (H [ev "A" "B" 5 1 0; ev "A" "B" 3 3 0] (perm_swap _ _ _) ("A", "B")).
    vm_compute in H. discriminate H.
  - compute_done.
  - intros H. specialize (H ("a:b", "c")). vm_compute in H. discriminate H.
Qed.

(** * Closure exclusion and one entry per key *)

Lemma reduce_store flows h o :
  Store.reduce flows (length h) (h ++ [o])
  = (length h, h ++ [reduceInto o flows]).
Proof.
  revert o. induction flows as [|i flows IH]; intros o; [done|].
  cbn [Store.reduce]. unfold Store.bind, Store.assign, Store.ret at 1.
  rewrite alter_app_r_alt, Nat.sub_diag by done. apply IH.
Qed.

Lemma getLatestFlows_store flows h :
  Store.getLatestFlows flows h
  = (getLatestFlows flows, h ++ [reduceInto JS.empty flows]).
Proof.
  unfold Store.getLatestFlows, Store.bind, Store.newObject.
  rewrite reduce_store. unfold Store.ownValues, Store.ret.
  by rewrite list_lookup_middle.
Qed.

(** C8: the reconciliation is a function of the batch alone.  Run twice in
    a row from any store, it returns the same output both times (and so the
    same projected entries), namely the value of the pure reading, and
    leaves every object that existed before untouched. *)
Theorem reconciliation_deterministic flows h :
  let run1 := Store.getLatestFlows flows h in
  let run2 := Store.getLatestFlows flows run1.2 in
  run1.1 = run2.1
  ∧ toFlow <$> run1.1 = toFlow <$> run2.1
  ∧ run1.1 = getLatestFlows flows
  ∧ h `prefix_of` run1.2
  ∧ run1.2 `prefix_of` run2.2.
Proof.
  simpl. rewrite !getLatestFlows_store. simpl.
  split_and!; try done; by eexists.
Qed.

(** The event the reduction keeps under a grouping key is also the last
    event of its flow key. *)
Lemma last_filter {A} (P : A → Prop) `{!∀ x, Decision (P x)} (l : list A) x :
  last l = Some x → P x → last (filter P l) = Some x.
Proof.
  intros [l' ->]%last_Some HP.
  by rewrite filter_app, filter_cons_True, filter_nil, last_snoc.
Qed.

Lemma winner_is_lastOf o flows :
  winner (flowKey o) flows = Some o → lastOf (keyOf o) flows = Some o.
Proof.
  rewrite winner_last. intros Hlast. unfold lastOf.
  rewrite <-(last_filter (λ i, keyOf i = keyOf o) _ o Hlast eq_refl).
  rewrite list_filter_filter. f_equal. apply list_filter_iff.
  intros i. split; [|tauto]. intros Hk. split; [done|]. by apply keyOf_flowKey.
Qed.

(** C2 (amended): closure exclusion.  No listed event has rate zero (its
    rate never prints as "0"); a flow key whose last event in batch order
    has rate zero has no entry at all; and for a batch in log order a flow
    key whose event with the greatest position has rate zero has no
    entry. *)
Theorem closure_exclusion flows :
  (∀ o, o ∈ getLatestFlows flows →
     flowRate (args o) ≠ 0%Z ∧ Flow.flowRate (toFlow o) ≠ "0")
  ∧ (∀ key e, lastOf key flows = Some e → flowRate (args e) = 0%Z →
       entriesFor key (getLatestFlows flows) = [])
  ∧ (chronological flows → closedKeysAbsent flows).
Proof.
  assert (∀ key e, lastOf key flows = Some e → flowRate (args e) = 0%Z →
            entriesFor key (getLatestFlows flows) = []) as Hclosed.
  { intros key e Hlast Hzero. apply filter_none.
    intros o [Hwo Hopen]%elem_of_getLatestFlows Hkey.
    apply winner_is_lastOf in Hwo. rewrite Hkey, Hlast in Hwo.
    injection Hwo as ->. by apply isOpen_rate in Hopen. }
  split_and!; [|done|].
  - intros o [_ Hopen]%elem_of_getLatestFlows. split; [|done].
    by apply isOpen_rate.
  - intros Hs key e He Hzero. apply (Hclosed key e); [|done].
    by rewrite <-latestByPosition_chronological.
Qed.

Lemma closure_exclusion_witness :
  lastOf ("A", "B") [ev "A" "B" 5 1 0; ev "A" "B" 0 2 0] = Some (ev "A" "B" 0 2 0)
  ∧ chronological [ev "A" "B" 5 1 0; ev "A" "B" 0 2 0]
  ∧ entriesFor ("A", "B") (getLatestFlows [ev "A" "B" 5 1 0; ev "A" "B" 0 2 0]) = []
  ∧ closedKeysAbsent [ev "A" "B" 5 1 0; ev "A" "B" 0 2 0].
Proof.
  assert (lastOf ("A", "B") [ev "A" "B" 5 1 0; ev "A" "B" 0 2 0]
          = Some (ev "A" "B" 0 2 0)) as Hlast by reflexivity.
  assert (chronological [ev "A" "B" 5 1 0; ev "A" "B" 0 2 0])
    as Hs by compute_done.
  split_and!; [done|done|..].
  - exact (proj1 (proj2 (closure_exclusion _)) ("A", "B") _ Hlast eq_refl).
  - exact (proj2 (proj2 (closure_exclusion _)) Hs).
Defined.

(** C2 as stated fails: on a batch that is not in log order, the event of
    the key with the greatest position can have rate zero while an earlier
    event, met later in the batch, is listed. *)
Lemma closure_exclusion_counterexample :
  latestByPosition ("A", "B") [ev "A" "B" 0 2 0; ev "A" "B" 5 1 0]
    = Some (ev "A" "B" 0 2 0)
  ∧ getLatestFlows [ev "A" "B" 0 2 0; ev "A" "B" 5 1 0] = [ev "A" "B" 5 1 0]
  ∧ ¬ closedKeysAbsent [ev "A" "B" 0 2 0; ev "A" "B" 5 1 0].
Proof.
  split_and!; [reflexivity..|].
  intros H. specialize (H ("A", "B") _ eq_refl eq_refl).
  vm_compute in H. discriminate H.
Qed.

(** One entry per grouping key, hence per flow key. *)
Lemma NoDup_keyOf_getLatestFlows flows : NoDup (keyOf <$> getLatestFlows flows).
Proof.
  pose proof (NoDup_flowKey_getLatestFlows flows) as Hnd.
  induction (getLatestFlows flows) as [|e out IH]; [constructor|].
  simpl in *. apply NoDup_cons in Hnd as [Hnin Hnd].
  apply NoDup_cons. split; [|auto].
  intros (e' & Heq & He')%list_elem_of_fmap. apply Hnin.
  rewrite (keyOf_flowKey _ _ Heq). by apply list_elem_of_fmap_2.
Qed.

(** * Decimal numerals *)

Lemma is_nat_pretty_N_char (d : N) :
  (d < 10)%N → Ascii.is_nat (pretty_N_char d) = Some (N.to_nat d).
Proof.
  intros Hd.
  assert (d = 0 ∨ d = 1 ∨ d = 2 ∨ d = 3 ∨ d = 4 ∨ d = 5 ∨ d = 6 ∨ d = 7
          ∨ d = 8 ∨ d = 9)%N as Hcases by lia.
  by destruct_or!; subst.
Qed.

Lemma digits_pretty_N_go (x : N) :
  ∃ n : N, ∀ s acc,
    JS.digits (pretty_N_go x s) acc = JS.digits s (acc * 10 ^ n + x)%N.
Proof.
  induction (N.lt_wf_0 x) as [x _ IH].
  destruct (decide (x = 0%N)) as [->|Hx].
  - exists 0%N. intros s acc. rewrite pretty_N_go_0. f_equal. lia.
  - assert (0 < x)%N as Hpos by lia.
    destruct (IH (x `div` 10)%N) as [n Hn]; [by apply N.div_lt|].
    exists (n + 1)%N. intros s acc.
    rewrite pretty_N_go_step, Hn by done. simpl.
    rewrite is_nat_pretty_N_char by (by apply N.mod_lt).
    f_equal. rewrite N2Nat.id, N.pow_add_r.
    pose proof (N.div_mod x 10). lia.
Qed.

Lemma digits_pretty (n : N) : JS.digits (pretty n) 0 = Some n.
Proof.
  unfold pretty, pretty_N. case_decide as Hn; [by subst|].
  destruct (digits_pretty_N_go n) as [k Hk]. by rewrite Hk.
Qed.

(** Reading back the numeral [toString] prints gives the number. *)
Lemma decimal_toString (z : BN.t) : JS.decimal (BN.toString z) = Some z.
Proof.
  unfold BN.toString, pretty, pretty_Z. destruct z as [|p|p].
  - done.
  - pose proof (digits_pretty (N.pos p)) as Hd.
    change (pretty p) with (pretty (N.pos p)).
    destruct (pretty (N.pos p)) as [|c s] eqn:Hs; [done|].
    unfold JS.decimal. destruct (decide (c = "-"%char)) as [->|Hc].
    + done.
    + rewrite Hd. simpl.
      by destruct c as [[] [] [] [] [] [] [] []]; destruct s.
  - pose proof (digits_pretty (N.pos p)) as Hd.
    change (pretty p) with (pretty (N.pos p)).
    change ("-" +:+ ?s) with (String "-"%char s).
    destruct (pretty (N.pos p)) as [|c s] eqn:Hs; [done|].
    unfold JS.decimal. by rewrite Hd.
Qed.

Lemma round_small (z : Z) : (Z.abs z < 2 ^ 53)%Z → Num.round z = z.
Proof.
  intros Hz. unfold Num.round.
  by rewrite (proj2 (Z.ltb_lt _ _) Hz).
Qed.

(** A number at or beyond 2^53 in magnitude stays so when rounded. *)
Lemma round_large (z : Z) : (2 ^ 53 ≤ Z.abs z)%Z → (2 ^ 53 ≤ Z.abs (Num.round z))%Z.
Proof.
  intros Hz. unfold Num.round. cbv zeta.
  rewrite (proj2 (Z.ltb_ge _ _) Hz).
  set (a := Z.abs z) in *.
  assert (53 ≤ Z.log2 a)%Z as Hlog by (by apply Z.log2_le_pow2; lia).
  set (e := (Z.log2 a - 52)%Z).
  assert (1 ≤ e)%Z as He by (unfold e; lia).
  assert (2 ^ 52 ≤ a / 2 ^ e)%Z as Hq.
  { apply Z.div_le_lower_bound; [by apply Z.pow_pos_nonneg; lia|].
    rewrite Z.mul_comm, <-Z.pow_add_r by lia.
    replace (52 + e)%Z with (Z.log2 a) by (unfold e; lia).
    apply Z.log2_spec. lia. }
  set (q := (a / 2 ^ e)%Z) in *.
  set (q' := if (_ || _)%bool then (q + 1)%Z else q).
  assert (q ≤ q')%Z as Hq' by (unfold q'; case_match; lia).
  assert (2 ≤ 2 ^ e)%Z as Hpow.
  { change 2%Z with (2 ^ 1)%Z at 1. apply Z.pow_le_mono_r; lia. }
  clearbody q' q e.
  rewrite Z.abs_mul.
  assert (Z.abs (q' * 2 ^ e) = q' * 2 ^ e)%Z as -> by (apply Z.abs_eq; nia).
  assert (Z.abs (Z.sgn z) = 1)%Z as -> by (unfold a in Hz; lia). nia.
Qed.

Lemma timestamp_rounding (ts : Z) :
  Date.new (Some (Num.mul (Num.round ts) 1000)) = Date.new (Some (ts * 1000)%Z).
Proof.
  unfold Num.mul.
  destruct (decide (Z.abs ts < 2 ^ 53)%Z) as [Hts|Hts].
  - rewrite (round_small ts) by done.
    destruct (decide (Z.abs (ts * 1000) < 2 ^ 53)%Z) as [Hx|Hx].
    + by rewrite round_small.
    + pose proof (round_large (ts * 1000)) as Hr.
      unfold Date.new. rewrite !decide_False; [done|lia..].
  - pose proof (round_large ts) as Hr.
    pose proof (round_large (Num.round ts * 1000)) as Hr'.
    unfold Date.new. rewrite !decide_False; [done|lia..].
Qed.

(** The date [getFlow] builds from a raw timestamp is the date of that many
    seconds, with no loss to rounding. *)
Lemma timestamp_date (ts : BN.t) :
  Date.new ((λ n, Num.mul n 1000) <$> Num.ofDecimal (BN.toString ts))
  = Date.ofSeconds ts.
Proof.
  unfold Num.ofDecimal. rewrite decimal_toString. simpl.
  apply timestamp_rounding.
Qed.

Lemma ofSeconds_valid (s : Z) :
  (Z.abs s ≤ 8640000000000)%Z → Date.ofSeconds s = Date.Valid (s * 1000).
Proof.
  intros Hs. unfold Date.ofSeconds, Date.new. by rewrite decide_True by lia.
Qed.

(** * deleteFlow and getFlow *)

Ltac run_M :=
  unfold mbind, M_bind, mret, M_ret, await, pastEvents, send; simpl.

(** C6: the acting identity of the close call.  When [by] is omitted the
    agreement call is sent from the normalized sender; when an address is
    supplied it is sent from the normalized supplied address. *)
Theorem deleteFlow_acting_identity sf superToken sender receiver t s r log :
  normalizeTokenParam sf superToken = Resolved t →
  normalizeAddressParam sf sender = Resolved s →
  normalizeAddressParam sf receiver = Resolved r →
  let callData := encodeABI sf (DeleteFlowCall t s r "0x") in
  deleteFlow sf superToken sender receiver None log
    = (log ++ [CallAgreement (cfa_address sf) callData s],
       host_callAgreement sf (cfa_address sf) callData s)
  ∧ ∀ b n, JS.truthy b = true →
      normalizeAddressParam sf b = Resolved n → JS.truthy n = true →
      deleteFlow sf superToken sender receiver (Some b) log
        = (log ++ [CallAgreement (cfa_address sf) callData n],
           host_callAgreement sf (cfa_address sf) callData n).
Proof.
  intros Ht Hs Hr callData. unfold deleteFlow. split.
  - run_M. by rewrite Ht, Hs, Hr.
  - intros b n Hb Hn Hn'. run_M. by rewrite Ht, Hs, Hr, Hb, Hn, Hn'.
Qed.

Lemma deleteFlow_acting_identity_witness :
  (deleteFlow (ledger []) "T" "0xA" "0xB" None []).1
    = [CallAgreement "0xCFA" "deleteFlow(T,0xA,0xB,0x)" "0xA"]
  ∧ (deleteFlow (ledger []) "T" "0xA" "0xB" (Some "0xC") []).1
    = [CallAgreement "0xCFA" "deleteFlow(T,0xA,0xB,0x)" "0xC"].
Proof.
  destruct (deleteFlow_acting_identity (ledger []) "T" "0xA" "0xB"
              "T" "0xA" "0xB" [] eq_refl eq_refl eq_refl) as [H1 H2].
  split.
  - by rewrite H1.
  - by rewrite (H2 "0xC" "0xC" eq_refl eq_refl eq_refl).
Defined.

(** An empty [by] is falsy and is handled like an omitted one. *)
Lemma deleteFlow_empty_by sf superToken sender receiver log :
  deleteFlow sf superToken sender receiver (Some "") log
  = deleteFlow sf superToken sender receiver None log.
Proof. reflexivity. Qed.

(** Opening and updating a flow send one agreement call each, from the
    normalized sender. *)
Lemma createFlow_request sf superToken sender receiver flowRate t s r f log :
  normalizeTokenParam sf superToken = Resolved t →
  normalizeAddressParam sf sender = Resolved s →
  normalizeAddressParam sf receiver = Resolved r →
  normalizeFlowRateParam sf flowRate = Resolved f →
  (createFlow sf superToken sender receiver flowRate log).1
  = log ++ [CallAgreement (cfa_address sf)
                          (encodeABI sf (CreateFlowCall t r f "0x")) s].
Proof.
  intros Ht Hs Hr Hf. unfold createFlow. run_M. by rewrite Ht, Hs, Hr, Hf.
Qed.

Lemma updateFlow_request sf superToken sender receiver flowRate t s r f log :
  normalizeTokenParam sf superToken = Resolved t →
  normalizeAddressParam sf sender = Resolved s →
  normalizeAddressParam sf receiver = Resolved r →
  normalizeFlowRateParam sf flowRate = Resolved f →
  (updateFlow sf superToken sender receiver flowRate log).1
  = log ++ [CallAgreement (cfa_address sf)
                          (encodeABI sf (UpdateFlowCall t r f "0x")) s].
Proof.
  intros Ht Hs Hr Hf. unfold updateFlow. run_M. by rewrite Ht, Hs, Hr, Hf.
Qed.

(** C7: [getFlow] sends one read and reshapes its answer, nothing else.
    The timestamp becomes the date of the instant that many seconds after
    the epoch, and the three amounts become their decimal numerals. *)
Theorem getFlow_sanitized sf superToken sender receiver t s r raw log :
  normalizeTokenParam sf superToken = Resolved t →
  normalizeAddressParam sf sender = Resolved s →
  normalizeAddressParam sf receiver = Resolved r →
  cfa_getFlow sf t s r = Resolved raw →
  ∃ info,
    getFlow sf superToken sender receiver log
      = (log ++ [GetFlow t s r], Resolved info)
    ∧ Info.timestamp info = Date.ofSeconds (Raw.timestamp raw)
    ∧ ((Z.abs (Raw.timestamp raw) ≤ 8640000000000)%Z →
         Info.timestamp info = Date.Valid (Raw.timestamp raw * 1000))
    ∧ Info.flowRate info = BN.toString (Raw.flowRate raw)
    ∧ Info.deposit info = BN.toString (Raw.deposit raw)
    ∧ Info.owedDeposit info = BN.toString (Raw.owedDeposit raw)
    ∧ JS.decimal (Info.flowRate info) = Some (Raw.flowRate raw)
    ∧ JS.decimal (Info.deposit info) = Some (Raw.deposit raw)
    ∧ JS.decimal (Info.owedDeposit info) = Some (Raw.owedDeposit raw).
Proof.
  intros Ht Hs Hr Hraw. exists (sanitize raw). split.
  - unfold getFlow. run_M. by rewrite Ht, Hs, Hr, Hraw.
  - unfold sanitize; simpl. rewrite timestamp_date, !decimal_toString.
    split_and!; try done. apply ofSeconds_valid.
Qed.

Lemma getFlow_sanitized_witness :
  getFlow (ledger []) "T" "0xA" "0xB" []
  = ([GetFlow "T" "0xA" "0xB"],
     Resolved (Info.mk (Date.Valid 1600000000000%Z) "385802469135"
                       "1111111111104000" "0")).
Proof.
  destruct (getFlow_sanitized (ledger []) "T" "0xA" "0xB" "T" "0xA" "0xB"
              (Raw.mk 1600000000%Z 385802469135%Z 1111111111104000%Z 0%Z) []
              eq_refl eq_refl eq_refl eq_refl)
    as (info & Hrun & Hts & _ & Hrate & Hdep & Howed & _).
  rewrite Hrun. destruct info; simpl in *. by subst.
Defined.

(** * listFlows *)

(** What a run of [listFlows] amounts to when the normalizers and the
    fetches it makes resolve. *)
Lemma listFlows_resolved sf superToken account onlyIn onlyOut t a inB outB log :
  normalizeTokenParam sf superToken = Resolved t →
  normalizeAddressParam sf account = Resolved a →
  (onlyOut = false →
     cfa_getPastEvents sf "FlowUpdated" (inOptions t a) = Resolved inB) →
  (onlyIn = false →
     cfa_getPastEvents sf "FlowUpdated" (outOptions t a) = Resolved outB) →
  listFlows sf superToken account onlyIn onlyOut log
  = (log
       ++ (if onlyOut then [] else [GetPastEvents "FlowUpdated" (inOptions t a)])
       ++ (if onlyIn then [] else [GetPastEvents "FlowUpdated" (outOptions t a)]),
     Resolved
       (Listing.mk
          (if onlyOut then None else Some (toFlow <$> getLatestFlows inB))
          (if onlyIn then None else Some (toFlow <$> getLatestFlows outB)))).
Proof.
  intros Ht Ha Hin Hout. unfold listFlows. run_M. rewrite Ht, Ha.
  destruct onlyIn, onlyOut; simpl;
    rewrite ?Hin, ?Hout, ?app_nil_r, <-?app_assoc by done; done.
Qed.

Lemma toFlow_receiver a flows :
  Forall (λ i, receiver (args i) = a) flows →
  Forall (λ f, Flow.receiver f = a) (toFlow <$> getLatestFlows flows).
Proof.
  intros Hall. apply Forall_fmap, Forall_forall.
  intros e He%getLatestFlows_subseteq.
  by apply (proj1 (Forall_forall _ _) Hall).
Qed.

Lemma toFlow_sender a flows :
  Forall (λ i, sender (args i) = a) flows →
  Forall (λ f, Flow.sender f = a) (toFlow <$> getLatestFlows flows).
Proof.
  intros Hall. apply Forall_fmap, Forall_forall.
  intros e He%getLatestFlows_subseteq.
  by apply (proj1 (Forall_forall _ _) Hall).
Qed.

Lemma string_length_app (s t : string) :
  String.length (s +:+ t) = String.length s + String.length t.
Proof.
  induction s as [|c s IH]; [done|].
  rewrite string_app_cons. simpl. by rewrite IH.
Qed.

Lemma string_app_inj_r (s1 s2 t : string) : s1 +:+ t = s2 +:+ t → s1 = s2.
Proof.
  intros Heq.
  assert (String.length s1 = String.length s2) as Hlen.
  { apply (f_equal String.length) in Heq.
    rewrite !string_length_app in Heq. lia. }
  revert s2 Heq Hlen. induction s1 as [|c1 s1 IH]; intros [|c2 s2]; try done.
  rewrite !string_app_cons. intros [= -> Heq] [= Hlen]. f_equal. by apply IH.
Qed.

(** Within a batch fetched by receiver, or by sender, the grouping key
    determines the flow key, whatever characters the identifiers contain. *)
Lemma flowKey_same_receiver e e' :
  receiver (args e) = receiver (args e') →
  flowKey e = flowKey e' → keyOf e = keyOf e'.
Proof.
  unfold flowKey, keyOf. intros -> Hk.
  apply string_app_inj_r, string_app_inj_r in Hk. by rewrite Hk.
Qed.

Lemma flowKey_same_sender e e' :
  sender (args e) = sender (args e') →
  flowKey e = flowKey e' → keyOf e = keyOf e'.
Proof.
  unfold flowKey, keyOf. intros -> Hk.
  apply (inj (String.app _)) in Hk. by rewrite Hk.
Qed.

(** The last event of a flow key is listed when its rate is not zero,
    provided the batch does not merge the key with another one. *)
Lemma lastOf_listed key e flows :
  (∀ i, i ∈ flows → flowKey i = flowKey e → keyOf i = keyOf e) →
  lastOf key flows = Some e → flowRate (args e) ≠ 0%Z →
  e ∈ getLatestFlows flows.
Proof.
  intros Hkeys Hlast Hrate.
  assert (e ∈ flows ∧ keyOf e = key) as [He Hkey].
  { apply last_Some_elem_of, list_elem_of_filter in Hlast. tauto. }
  apply elem_of_getLatestFlows. split; [|by apply isOpen_rate].
  rewrite winner_last, <-Hlast. unfold lastOf. f_equal.
  apply filter_ext_elem_of. intros i Hi. rewrite <-Hkey. split.
  - by apply Hkeys.
  - apply keyOf_flowKey.
Qed.

(** C3: direction partition.  When the batch fetched by receiver holds only
    events received by the account and the batch fetched by sender only
    events sent by it, every entry of [inFlows] has the account as receiver
    and every entry of [outFlows] has it as sender; and when both
    directions are requested, an open flow from the account to itself,
    present in both batches, is listed in both fields. *)
Theorem direction_partition sf superToken account onlyIn onlyOut t a inB outB log :
  normalizeTokenParam sf superToken = Resolved t →
  normalizeAddressParam sf account = Resolved a →
  (onlyOut = false →
     cfa_getPastEvents sf "FlowUpdated" (inOptions t a) = Resolved inB) →
  (onlyIn = false →
     cfa_getPastEvents sf "FlowUpdated" (outOptions t a) = Resolved outB) →
  Forall (λ i, receiver (args i) = a) inB →
  Forall (λ i, sender (args i) = a) outB →
  ∃ r,
    (listFlows sf superToken account onlyIn onlyOut log).2 = Resolved r
    ∧ (∀ ins, Listing.inFlows r = Some ins →
         Forall (λ f, Flow.receiver f = a) ins)
    ∧ (∀ outs, Listing.outFlows r = Some outs →
         Forall (λ f, Flow.sender f = a) outs)
    ∧ (onlyIn = false → onlyOut = false →
         ∃ ins outs,
           Listing.inFlows r = Some ins ∧ Listing.outFlows r = Some outs
           ∧ ∀ e, lastOf (a, a) inB = Some e → lastOf (a, a) outB = Some e →
               flowRate (args e) ≠ 0%Z →
               toFlow e ∈ ins ∧ toFlow e ∈ outs).
Proof.
  intros Ht Ha Hin Hout HinB HoutB.
  rewrite (listFlows_resolved sf superToken account onlyIn onlyOut
             t a inB outB log) by done.
  eexists. split; [done|]. simpl. split_and!.
  - intros ins Hins. destruct onlyOut; [done|]. injection Hins as <-.
    by apply toFlow_receiver.
  - intros outs Houts. destruct onlyIn; [done|]. injection Houts as <-.
    by apply toFlow_sender.
  - intros -> ->. do 2 eexists. split_and!; [done|done|].
    intros e HlastIn HlastOut Hrate.
    assert (keyOf e = (a, a)) as [= Hs Hr].
    { apply last_Some_elem_of, list_elem_of_filter in HlastIn. tauto. }
    split; apply list_elem_of_fmap_2.
    + apply (lastOf_listed (a, a)); [|done..].
      intros i Hi. apply flowKey_same_receiver.
      by rewrite Hr, (proj1 (Forall_forall _ _) HinB i Hi).
    + apply (lastOf_listed (a, a)); [|done..].
      intros i Hi. apply flowKey_same_sender.
      by rewrite Hs, (proj1 (Forall_forall _ _) HoutB i Hi).
Qed.

Lemma direction_partition_witness :
  (listFlows (ledger demoLog) "T" "A" false false []).2
  = Resolved (Listing.mk
      (Some [Flow.mk "C" "A" "9"; Flow.mk "A" "A" "2"; Flow.mk "D" "A" "4"])
      (Some [Flow.mk "A" "A" "2"])).
Proof.
  destruct (direction_partition (ledger demoLog) "T" "A" false false "T" "A"
              (filter (matches (Filter.mk "T" None (Some "A"))) demoLog)
              (filter (matches (Filter.mk "T" (Some "A") None)) demoLog) []
              eq_refl eq_refl (λ _, eq_refl) (λ _, eq_refl))
    as (r & Hrun & _); [compute_done..|].
  rewrite Hrun. vm_compute in Hrun. by injection Hrun as <-.
Defined.

(** C4: mode suppression.  Asked for the inbound direction only,
    [listFlows] returns an object with [inFlows] and without [outFlows];
    asked for the outbound direction only, one with [outFlows] and without
    [inFlows]. *)
Theorem mode_suppression sf superToken account t a log :
  normalizeTokenParam sf superToken = Resolved t →
  normalizeAddressParam sf account = Resolved a →
  (∀ inB, cfa_getPastEvents sf "FlowUpdated" (inOptions t a) = Resolved inB →
     ∃ ins, (listFlows sf superToken account true false log).2
            = Resolved (Listing.mk (Some ins) None))
  ∧ (∀ outB, cfa_getPastEvents sf "FlowUpdated" (outOptions t a) = Resolved outB →
     ∃ outs, (listFlows sf superToken account false true log).2
             = Resolved (Listing.mk None (Some outs))).
Proof.
  intros Ht Ha. split.
  - intros inB Hin.
    rewrite (listFlows_resolved sf superToken account true false t a inB [] log)
      by done.
    by eexists.
  - intros outB Hout.
    rewrite (listFlows_resolved sf superToken account false true t a [] outB log)
      by done.
    by eexists.
Qed.

Lemma mode_suppression_witness :
  (listFlows (ledger demoLog) "T" "A" true false []).2
  = Resolved (Listing.mk
      (Some [Flow.mk "C" "A" "9"; Flow.mk "A" "A" "2"; Flow.mk "D" "A" "4"])
      None).
Proof.
  destruct (proj1 (mode_suppression (ledger demoLog) "T" "A" "T" "A" []
                     eq_refl eq_refl) _ eq_refl) as [ins Hrun].
  rewrite Hrun. vm_compute in Hrun. by injection Hrun as <-.
Defined.

(** C5: a requested direction whose fetched batch is empty is present in
    the result, as the empty sequence. *)
Theorem empty_batch_listed sf superToken account onlyIn onlyOut t a inB outB log :
  normalizeTokenParam sf superToken = Resolved t →
  normalizeAddressParam sf account = Resolved a →
  (onlyOut = false →
     cfa_getPastEvents sf "FlowUpdated" (inOptions t a) = Resolved inB) →
  (onlyIn = false →
     cfa_getPastEvents sf "FlowUpdated" (outOptions t a) = Resolved outB) →
  ∃ r,
    (listFlows sf superToken account onlyIn onlyOut log).2 = Resolved r
    ∧ (onlyOut = false → inB = [] → Listing.inFlows r = Some [])
    ∧ (onlyIn = false → outB = [] → Listing.outFlows r = Some []).
Proof.
  intros Ht Ha Hin Hout.
  rewrite (listFlows_resolved sf superToken account onlyIn onlyOut
             t a inB outB log) by done.
  eexists. split; [done|]. simpl. split; by intros -> ->.
Qed.

Lemma empty_batch_listed_witness :
  (listFlows (ledger []) "T" "A" false false []).2
  = Resolved (Listing.mk (Some []) (Some [])).
Proof.
  destruct (empty_batch_listed (ledger []) "T" "A" false false "T" "A" [] [] []
              eq_refl eq_refl (λ _, eq_refl) (λ _, eq_refl))
    as (r & Hrun & Hin & Hout).
  rewrite Hrun. destruct r as [ins outs]; simpl in *.
  by rewrite (Hin eq_refl eq_refl), (Hout eq_refl eq_refl).
Defined.

(** C9: with both [onlyInFlows] and [onlyOutFlows] set, [listFlows] fetches
    nothing and resolves to an object with neither field. *)
Theorem both_only_flags_empty_object sf superToken account t a log :
  normalizeTokenParam sf superToken = Resolved t →
  normalizeAddressParam sf account = Resolved a →
  listFlows sf superToken account true true log
  = (log, Resolved (Listing.mk None None)).
Proof.
  intros Ht Ha.
  rewrite (listFlows_resolved sf superToken account true true t a [] [] log)
    by done.
  simpl. by rewrite app_nil_r.
Qed.

Lemma both_only_flags_empty_object_witness :
  listFlows (ledger demoLog) "T" "A" true true []
  = ([], Resolved (Listing.mk None None)).
Proof.
  exact (both_only_flags_empty_object (ledger demoLog) "T" "A" "T" "A" []
           eq_refl eq_refl).
Defined.

(** C10: at most one entry per grouping key, the sender, a colon and the
    receiver, in the output of the reduction, for every batch; hence at most
    one entry per (sender, receiver) pair in [inFlows] and in [outFlows]
    when no account identifier contains a colon. *)
Theorem one_entry_per_key :
  (∀ flows, NoDup (flowKey <$> getLatestFlows flows))
  ∧ (∀ sf superToken account onlyIn onlyOut t a inB outB log,
       normalizeTokenParam sf superToken = Resolved t →
       normalizeAddressParam sf account = Resolved a →
       (onlyOut = false →
          cfa_getPastEvents sf "FlowUpdated" (inOptions t a) = Resolved inB) →
       (onlyIn = false →
          cfa_getPastEvents sf "FlowUpdated" (outOptions t a) = Resolved outB) →
       colonFree inB → colonFree outB →
       ∃ r,
         (listFlows sf superToken account onlyIn onlyOut log).2 = Resolved r
         ∧ (∀ ins, Listing.inFlows r = Some ins → NoDup (flowPair <$> ins))
         ∧ (∀ outs, Listing.outFlows r = Some outs → NoDup (flowPair <$> outs))).
Proof.
  split; [apply NoDup_flowKey_getLatestFlows|].
  intros sf superToken account onlyIn onlyOut t a inB outB log
    Ht Ha Hin Hout _ _.
  rewrite (listFlows_resolved sf superToken account onlyIn onlyOut
             t a inB outB log) by done.
  eexists. split; [done|]. simpl. split.
  - intros ins Hins. destruct onlyOut; [done|]. injection Hins as <-.
    rewrite <-list_fmap_compose. apply NoDup_keyOf_getLatestFlows.
  - intros outs Houts. destruct onlyIn; [done|]. injection Houts as <-.
    rewrite <-list_fmap_compose. apply NoDup_keyOf_getLatestFlows.
Qed.

Lemma one_entry_per_key_witness :
  ∃ r, (listFlows (ledger demoLog) "T" "A" false false []).2 = Resolved r
       ∧ (∀ ins, Listing.inFlows r = Some ins → NoDup (flowPair <$> ins))
       ∧ (∀ outs, Listing.outFlows r = Some outs → NoDup (flowPair <$> outs)).
Proof.
  apply (proj2 one_entry_per_key (ledger demoLog) "T" "A" false false "T" "A"
           (filter (matches (Filter.mk "T" None (Some "A"))) demoLog)
           (filter (matches (Filter.mk "T" (Some "A") None)) demoLog) []);
    try reflexivity; compute_done.
Defined.

(** * Further properties of the helper *)
Lemma keys_set {V} k (v : V) o :
  JS.keys (JS.set k v o) = addKey (JS.keys o) k.
Proof.
  unfold addKey, JS.keys. induction o as [|[k0 v0] o IH]; [done|].
  cbn [JS.set]. rewrite fmap_cons. cbn [fst].
  destruct (decide (k = k0)) as [->|Hne].
  - rewrite fmap_cons, decide_True; [done|]. left.
  - rewrite fmap_cons, IH. cbn [fst].
    destruct (decide (k ∈ fst <$> o)) as [Hin|Hnin].
    + rewrite decide_True; [done|]. by right.
    + rewrite decide_False; [done|]. by intros [->|?]%elem_of_cons.
Qed.

Lemma keys_reduceInto flows acc :
  JS.keys (reduceInto acc flows) = foldl addKey (JS.keys acc) (flowKey <$> flows).
Proof.
  revert acc. induction flows as [|i flows IH]; intros acc; [done|].
  change (reduceInto acc (i :: flows))
    with (reduceInto (JS.set (flowKey i) i acc) flows).
  rewrite IH, keys_set. done.
Qed.

Lemma omap_ext_elem_of {A B} (f g : A → option B) (l : list A) :
  (∀ x, x ∈ l → f x = g x) → omap f l = omap g l.
Proof.
  induction l as [|a l IH]; intros Hfg; [done|]. cbn.
  rewrite (Hfg a) by left.
  assert (omap f l = omap g l) as Hl.
  { apply IH. intros x Hx. apply Hfg. by right. }
  destruct (g a); cbn; [f_equal|]; exact Hl.
Qed.

Lemma values_by_keys {V} (o : JS.object V) :
  NoDup (JS.keys o) → omap (λ k, JS.get k o) (JS.keys o) = snd <$> o.
Proof.
  unfold JS.keys. induction o as [|[k0 v0] o IH]; intros Hnd; [done|].
  rewrite !fmap_cons in *. cbn [fst snd].
  apply NoDup_cons in Hnd as [Hnin Hnd].
  assert (omap (λ k, JS.get k ((k0, v0) :: o)) (fst <$> o) = snd <$> o) as Hrest.
  { rewrite <-IH by done. apply omap_ext_elem_of.
    intros k Hk. cbn [JS.get]. rewrite decide_False; [done|]. by intros ->. }
  cbn. rewrite decide_True by done. cbn. f_equal. exact Hrest.
Qed.

(** X2: the listing in closed form.  The keys appear in the order in
    which the batch first mentions them, each with the last event of its
    key, and the events whose rate prints as "0" are dropped. *)
Theorem listing_order flows :
  getLatestFlows flows
  = filter isOpen (omap (λ k, lastWith k flows) (firstSeen (flowKey <$> flows))).
Proof.
  unfold getLatestFlows. rewrite values_reduceInto.
  destruct (keyed_reduceInto flows JS.empty keyed_empty) as [Hnd _].
  rewrite <-(values_by_keys _ Hnd), keys_reduceInto. f_equal.
  apply omap_ext_elem_of. intros k _. apply winner_last.
Qed.

(** X1: an event is listed exactly when it is the last event of its
    grouping key in the batch and its rate is not zero. *)
Theorem listed_iff_last_open e flows :
  e ∈ getLatestFlows flows
  ↔ lastWith (flowKey e) flows = Some e ∧ flowRate (args e) ≠ 0%Z.
Proof.
  rewrite elem_of_getLatestFlows, winner_last, isOpen_rate. done.
Qed.
Lemma lastWith_elem_of k w flows :
  lastWith k flows = Some w → w ∈ flows ∧ flowKey w = k.
Proof.
  intros Hl%last_Some_elem_of. apply list_elem_of_filter in Hl. tauto.
Qed.

(** The entries of one grouping key: the last event of the key, unless
    its rate is zero. *)
Lemma entries_of_key k flows :
  filter (λ e, flowKey e = k) (getLatestFlows flows) = keepOpen (lastWith k flows).
Proof.
  destruct (lastWith k flows) as [w|] eqn:Hlast; simpl.
  - destruct (lastWith_elem_of _ _ _ Hlast) as [Hw Hk].
    assert (winner k flows = Some w) as Hwin by by rewrite winner_last.
    case_decide as Hrate.
    + apply filter_none. intros e [Hwe Hopen]%elem_of_getLatestFlows Hke.
      rewrite Hke, Hwin in Hwe. injection Hwe as <-.
      by apply isOpen_rate in Hopen.
    + rewrite <-Hk. apply (filter_key_unique flowKey).
      * apply NoDup_flowKey_getLatestFlows.
      * apply elem_of_getLatestFlows. rewrite Hk. split; [done|].
        by apply isOpen_rate.
  - apply last_None in Hlast. apply filter_none.
    intros e He%getLatestFlows_subseteq Hk.
    by apply (filter_nil_not_elem_of _ _ e Hlast).
Qed.

Lemma set_fresh {V} k (v : V) (o : JS.object V) :
  k ∉ JS.keys o → JS.set k v o = o ++ [(k, v)].
Proof.
  unfold JS.keys. induction o as [|[k0 v0] o IH]; intros Hk; [done|].
  rewrite fmap_cons in Hk. cbn [fst] in Hk.
  apply not_elem_of_cons in Hk as [Hne Hk].
  cbn [JS.set]. rewrite decide_False by done. by rewrite IH.
Qed.

Lemma reduceInto_fresh flows acc :
  NoDup (flowKey <$> flows) →
  (∀ i, i ∈ flows → flowKey i ∉ JS.keys acc) →
  reduceInto acc flows = acc ++ ((λ i, (flowKey i, i)) <$> flows).
Proof.
  revert acc. induction flows as [|i flows IH]; intros acc Hnd Hfresh.
  - by rewrite app_nil_r.
  - rewrite fmap_cons in Hnd. apply NoDup_cons in Hnd as [Hi Hnd].
    change (reduceInto acc (i :: flows))
      with (reduceInto (JS.set (flowKey i) i acc) flows).
    rewrite set_fresh by (apply Hfresh; left).
    rewrite IH; [by rewrite <-app_assoc|done|].
    intros j Hj. unfold JS.keys. rewrite fmap_app, elem_of_app.
    intros [Hin|Hin].
    + by apply (Hfresh j); [right|].
    + apply list_elem_of_singleton in Hin. simpl in Hin.
      apply Hi. rewrite <-Hin. by apply list_elem_of_fmap_2.
Qed.

(** A batch with one event per grouping key is listed as it is, less the
    closed flows. *)
Lemma getLatestFlows_distinct flows :
  NoDup (flowKey <$> flows) → getLatestFlows flows = filter isOpen flows.
Proof.
  intros Hnd. unfold getLatestFlows.
  rewrite values_reduceInto, reduceInto_fresh; [|done|].
  - rewrite app_nil_l, <-list_fmap_compose. f_equal.
    induction flows as [|i flows IH]; [done|].
    rewrite fmap_cons. f_equal. apply IH.
    rewrite fmap_cons in Hnd. by apply NoDup_cons in Hnd as [_ ?].
  - intros i _. apply not_elem_of_nil.
Qed.

(** X6: a batch with one event per grouping key is listed as it is, less
    the events of rate zero; for such batches a shuffle of the batch only
    shuffles the listing. *)
Theorem distinct_keys_listed_as_is flows :
  NoDup (flowKey <$> flows) →
  getLatestFlows flows = filter isOpen flows
  ∧ ∀ flows', flows' ≡ₚ flows → getLatestFlows flows' ≡ₚ getLatestFlows flows.
Proof.
  intros Hnd. split; [by apply getLatestFlows_distinct|].
  intros flows' Hperm.
  rewrite !getLatestFlows_distinct; [by rewrite Hperm|done|by rewrite Hperm].
Qed.

Lemma distinct_keys_listed_as_is_witness :
  getLatestFlows [ev "A" "B" 5 1 0; ev "C" "B" 0 2 0; ev "B" "A" 3 3 0]
  = [ev "A" "B" 5 1 0; ev "B" "A" 3 3 0].
Proof.
  assert (NoDup (flowKey <$> [ev "A" "B" 5 1 0; ev "C" "B" 0 2 0; ev "B" "A" 3 3 0]))
    as Hnd by compute_done.
  rewrite (proj1 (distinct_keys_listed_as_is _ Hnd)). reflexivity.
Defined.

Lemma filter_all {A} (P : A → Prop) `{!∀ x, Decision (P x)} (l : list A) :
  (∀ x, x ∈ l → P x) → filter P l = l.
Proof.
  induction l as [|a l IH]; intros Hall; [done|].
  rewrite filter_cons_True by (apply Hall; left). f_equal.
  apply IH. intros x Hx. apply Hall. by right.
Qed.

(** X3: listing a listing changes nothing. *)
Theorem getLatestFlows_idempotent flows :
  getLatestFlows (getLatestFlows flows) = getLatestFlows flows.
Proof.
  rewrite getLatestFlows_distinct by apply NoDup_flowKey_getLatestFlows.
  apply filter_all. by intros e [_ Hopen]%elem_of_getLatestFlows.
Qed.

(** X4: what is listed for a grouping key depends on the events of that
    key alone: selecting the key after listing equals listing the events
    of the key. *)
Theorem key_independence k flows :
  filter (λ e, flowKey e = k) (getLatestFlows flows)
  = getLatestFlows (filter (λ i, flowKey i = k) flows).
Proof.
  rewrite entries_of_key.
  rewrite <-(filter_all (λ e, flowKey e = k)
               (getLatestFlows (filter (λ i, flowKey i = k) flows))).
  - rewrite entries_of_key. unfold lastWith. f_equal. f_equal.
    symmetry. apply filter_all. by intros i [? _]%list_elem_of_filter.
  - intros e He%getLatestFlows_subseteq. by apply list_elem_of_filter in He as [? _].
Qed.

Lemma set_other {V} k (v : V) (o : JS.object V) :
  filter (λ kv, kv.1 ≠ k) (JS.set k v o) = filter (λ kv, kv.1 ≠ k) o.
Proof.
  induction o as [|[k0 v0] o IH].
  - cbn [JS.set]. by rewrite filter_cons_False by (simpl; auto).
  - cbn [JS.set]. destruct (decide (k = k0)) as [->|Hne].
    + by rewrite !filter_cons_False by (simpl; auto).
    + by rewrite !filter_cons_True, IH by (simpl; auto).
Qed.

Lemma values_other_keys k (o : JS.object Event) :
  keyed o →
  filter (λ e, flowKey e ≠ k) (snd <$> o) = snd <$> filter (λ kv, kv.1 ≠ k) o.
Proof.
  intros [_ Hall]. induction Hall as [|[k0 v0] o Hk _ IH]; [done|].
  simpl in Hk. rewrite fmap_cons. cbn [snd].
  destruct (decide (k0 = k)) as [->|Hne].
  - rewrite !filter_cons_False by (simpl; rewrite ?Hk; auto). done.
  - rewrite !filter_cons_True by (simpl; rewrite ?Hk; auto).
    rewrite fmap_cons. cbn [snd]. by f_equal.
Qed.

Lemma filter_swap {A} (P Q : A → Prop)
    `{!∀ x, Decision (P x), !∀ x, Decision (Q x)} (l : list A) :
  filter P (filter Q l) = filter Q (filter P l).
Proof. rewrite !list_filter_filter. apply list_filter_iff. tauto. Qed.

(** X5: one more event at the end of the batch.  Its own key is then
    listed with that event, or not at all when its rate is zero; the
    entries of all other keys, and their order, stay as they were. *)
Theorem append_event flows e :
  filter (λ o, flowKey o = flowKey e) (getLatestFlows (flows ++ [e]))
    = (if decide (flowRate (args e) = 0%Z) then [] else [e])
  ∧ filter (λ o, flowKey o ≠ flowKey e) (getLatestFlows (flows ++ [e]))
    = filter (λ o, flowKey o ≠ flowKey e) (getLatestFlows flows).
Proof.
  split.
  - rewrite entries_of_key. unfold lastWith.
    by rewrite filter_app, filter_cons_True, filter_nil, last_snoc.
  - unfold getLatestFlows. rewrite !values_reduceInto.
    rewrite !(filter_swap _ isOpen). f_equal.
    rewrite !values_other_keys by apply keyed_reduceInto, keyed_empty.
    f_equal. unfold reduceInto. rewrite fold_left_app. simpl.
    apply set_other.
Qed.

(** X7: the grouping key determines the (sender, receiver) pair when the
    senders contain no colon; without that, a sender "s:x" with receiver
    "r" and a sender "s" with receiver "x:r" share one grouping key. *)
Theorem grouping_key_injectivity :
  (∀ e e', has_colon (sender (args e)) = false →
     has_colon (sender (args e')) = false →
     flowKey e = flowKey e' → keyOf e = keyOf e')
  ∧ (∀ e e' x, sender (args e) = (sender (args e') +:+ ":") +:+ x →
       receiver (args e') = (x +:+ ":") +:+ receiver (args e) →
       flowKey e = flowKey e').
Proof.
  split.
  - intros e e' Hs Hs' Hk. unfold keyOf.
    by destruct (flowKey_split _ _ _ _ Hs Hs' Hk) as [-> ->].
  - intros e e' x Hs Hr. unfold flowKey. rewrite Hs, Hr.
    by rewrite !string_app_assoc.
Qed.
Ltac run_cases sf :=
  run_M;
  repeat match goal with
  | |- context [normalizeTokenParam sf ?x] =>
      destruct (normalizeTokenParam sf x) eqn:?; simpl
  | |- context [normalizeAddressParam sf ?x] =>
      destruct (normalizeAddressParam sf x) eqn:?; simpl
  | |- context [normalizeFlowRateParam sf ?x] =>
      destruct (normalizeFlowRateParam sf x) eqn:?; simpl
  end.

(** X9: [createFlow] sends at most one request.  A request it sends is the
    agreement call carrying the normalized token, receiver and flow rate,
    sent from the normalized sender, and the ledger's answer to it is the
    result; it sends nothing exactly when a normalizer rejects, and then
    rejects with the reason of the first one that did, in the order token,
    sender, receiver, flow rate. *)
Theorem createFlow_at_most_one_call sf superToken sender receiver flowRate log :
  ∃ sent,
    (createFlow sf superToken sender receiver flowRate log).1 = log ++ sent
    ∧ (∀ q, q ∈ sent →
         sent = [q]
         ∧ ∃ t s r f,
             normalizeTokenParam sf superToken = Resolved t
             ∧ normalizeAddressParam sf sender = Resolved s
             ∧ normalizeAddressParam sf receiver = Resolved r
             ∧ normalizeFlowRateParam sf flowRate = Resolved f
             ∧ q = CallAgreement (cfa_address sf)
                     (encodeABI sf (CreateFlowCall t r f "0x")) s
             ∧ (createFlow sf superToken sender receiver flowRate log).2
               = host_callAgreement sf (cfa_address sf)
                   (encodeABI sf (CreateFlowCall t r f "0x")) s)
    ∧ (sent = [] →
         ∃ reason,
           firstRejected [normalizeTokenParam sf superToken;
                          normalizeAddressParam sf sender;
                          normalizeAddressParam sf receiver;
                          normalizeFlowRateParam sf flowRate] = Some reason
           ∧ (createFlow sf superToken sender receiver flowRate log).2
             = Rejected reason).
Proof.
  unfold createFlow. run_cases sf;
    try (exists []; rewrite app_nil_r; split_and!;
         [done|by intros q ?%elem_of_nil|by eexists]).
  eexists [_]. split_and!; [done| |done].
  intros q ->%list_elem_of_singleton. split; [done|]. by do 4 eexists.
Qed.

(** X10: [updateFlow] behaves like [createFlow] with the update method:
    at most one agreement call, from the normalized sender, whose answer
    is the result; nothing is sent when a normalizer rejects, and the first
    rejection is the result. *)
Theorem updateFlow_at_most_one_call sf superToken sender receiver flowRate log :
  ∃ sent,
    (updateFlow sf superToken sender receiver flowRate log).1 = log ++ sent
    ∧ (∀ q, q ∈ sent →
         sent = [q]
         ∧ ∃ t s r f,
             normalizeTokenParam sf superToken = Resolved t
             ∧ normalizeAddressParam sf sender = Resolved s
             ∧ normalizeAddressParam sf receiver = Resolved r
             ∧ normalizeFlowRateParam sf flowRate = Resolved f
             ∧ q = CallAgreement (cfa_address sf)
                     (encodeABI sf (UpdateFlowCall t r f "0x")) s
             ∧ (updateFlow sf superToken sender receiver flowRate log).2
               = host_callAgreement sf (cfa_address sf)
                   (encodeABI sf (UpdateFlowCall t r f "0x")) s)
    ∧ (sent = [] →
         ∃ reason,
           firstRejected [normalizeTokenParam sf superToken;
                          normalizeAddressParam sf sender;
                          normalizeAddressParam sf receiver;
                          normalizeFlowRateParam sf flowRate] = Some reason
           ∧ (updateFlow sf superToken sender receiver flowRate log).2
             = Rejected reason).
Proof.
  unfold updateFlow. run_cases sf;
    try (exists []; rewrite app_nil_r; split_and!;
         [done|by intros q ?%elem_of_nil|by eexists]).
  eexists [_]. split_and!; [done| |done].
  intros q ->%list_elem_of_singleton. split; [done|]. by do 4 eexists.
Qed.

(** X12: whatever [by] is, a call [deleteFlow] sends names the flow from
    the normalized sender to the normalized receiver of the normalized
    token; [by] only chooses who sends it, the normalized sender or the
    normalized [by].  At most one call is sent, its answer is the result,
    and when none is sent the result is a rejection. *)
Theorem deleteFlow_closes_the_named_flow sf superToken sender receiver by_ log :
  ∃ sent,
    (deleteFlow sf superToken sender receiver by_ log).1 = log ++ sent
    ∧ (∀ q, q ∈ sent →
         sent = [q]
         ∧ ∃ t s r from,
             normalizeTokenParam sf superToken = Resolved t
             ∧ normalizeAddressParam sf sender = Resolved s
             ∧ normalizeAddressParam sf receiver = Resolved r
             ∧ q = CallAgreement (cfa_address sf)
                     (encodeABI sf (DeleteFlowCall t s r "0x")) from
             ∧ (from = s
                ∨ ∃ b, by_ = Some b ∧ JS.truthy b = true
                       ∧ normalizeAddressParam sf b = Resolved from
                       ∧ JS.truthy from = true)
             ∧ (deleteFlow sf superToken sender receiver by_ log).2
               = host_callAgreement sf (cfa_address sf)
                   (encodeABI sf (DeleteFlowCall t s r "0x")) from)
    ∧ (sent = [] →
         ∃ reason,
           (deleteFlow sf superToken sender receiver by_ log).2 = Rejected reason).
Proof.
  unfold deleteFlow. run_M.
  destruct (normalizeTokenParam sf superToken) as [t|e] eqn:Ht; simpl;
    [|exists []; rewrite app_nil_r; split_and!;
       [done|by intros q ?%elem_of_nil|by eexists]].
  destruct (normalizeAddressParam sf sender) as [s|e] eqn:Hs; simpl;
    [|exists []; rewrite app_nil_r; split_and!;
       [done|by intros q ?%elem_of_nil|by eexists]].
  destruct (normalizeAddressParam sf receiver) as [r|e] eqn:Hr; simpl;
    [|exists []; rewrite app_nil_r; split_and!;
       [done|by intros q ?%elem_of_nil|by eexists]].
  destruct by_ as [b|]; simpl.
  - destruct (JS.truthy b) eqn:Hb; simpl.
    + destruct (normalizeAddressParam sf b) as [n|e] eqn:Hn; simpl.
      * eexists [_]. split_and!; [done| |done].
        intros q ->%list_elem_of_singleton. split; [done|].
        destruct (JS.truthy n) eqn:Hn'.
        -- exists t, s, r, n. split_and!; try done. right. by exists b.
        -- exists t, s, r, s. split_and!; try done. by left.
      * exists []. rewrite app_nil_r. split_and!;
          [done|by intros q ?%elem_of_nil|by eexists].
    + eexists [_]. split_and!; [done| |done].
      intros q ->%list_elem_of_singleton. split; [done|].
      exists t, s, r, s. split_and!; try done. by left.
  - eexists [_]. split_and!; [done| |done].
    intros q ->%list_elem_of_singleton. split; [done|].
    exists t, s, r, s. split_and!; try done. by left.
Qed.

(** X13: the edges of [by].  A [by] whose normalized form is the empty
    string is handled like an omitted one; a non-empty [by] whose
    normalization rejects makes [deleteFlow] reject with that reason
    without sending anything. *)
Theorem deleteFlow_by_fallbacks sf superToken sender receiver t s r log :
  normalizeTokenParam sf superToken = Resolved t →
  normalizeAddressParam sf sender = Resolved s →
  normalizeAddressParam sf receiver = Resolved r →
  (∀ b, normalizeAddressParam sf b = Resolved "" →
     deleteFlow sf superToken sender receiver (Some b) log
     = deleteFlow sf superToken sender receiver None log)
  ∧ (∀ b reason, JS.truthy b = true →
       normalizeAddressParam sf b = Rejected reason →
       deleteFlow sf superToken sender receiver (Some b) log
       = (log, Rejected reason)).
Proof.
  intros Ht Hs Hr. unfold deleteFlow. split.
  - intros b Hb. run_M. rewrite Ht, Hs, Hr. simpl.
    destruct (JS.truthy b); [|done]. by rewrite Hb.
  - intros b reason Hb Hn. run_M. by rewrite Ht, Hs, Hr, Hb, Hn.
Qed.
Lemma deleteFlow_by_fallbacks_witness :
  deleteFlow (framework resolveName Resolved (λ _, Resolved []))
    "T" "0xA" "0xB" (Some "void.eth") []
  = ([CallAgreement "0xCFA" "deleteFlow(T,0xA,0xB,0x)" "0xA"], Resolved "0xA")
  ∧ deleteFlow (framework resolveName Resolved (λ _, Resolved []))
      "T" "0xA" "0xB" (Some "nobody.eth") []
    = ([], Rejected "unresolved name").
Proof.
  destruct (deleteFlow_by_fallbacks
              (framework resolveName Resolved (λ _, Resolved []))
              "T" "0xA" "0xB" "T" "0xA" "0xB" [] eq_refl eq_refl eq_refl)
    as [Hvoid Hrej].
  split.
  - by rewrite (Hvoid "void.eth" eq_refl).
  - by rewrite (Hrej "nobody.eth" "unresolved name" eq_refl eq_refl).
Defined.

(** X11: nothing is remembered between calls: calling [createFlow] twice
    with the same arguments sends the same agreement call twice. *)
Theorem createFlow_twice_sends_twice
    sf superToken sender receiver flowRate t s r f tx log :
  normalizeTokenParam sf superToken = Resolved t →
  normalizeAddressParam sf sender = Resolved s →
  normalizeAddressParam sf receiver = Resolved r →
  normalizeFlowRateParam sf flowRate = Resolved f →
  let call := CallAgreement (cfa_address sf)
                (encodeABI sf (CreateFlowCall t r f "0x")) s in
  host_callAgreement sf (cfa_address sf)
    (encodeABI sf (CreateFlowCall t r f "0x")) s = Resolved tx →
  (createFlow sf superToken sender receiver flowRate
     ≫= λ _, createFlow sf superToken sender receiver flowRate) log
  = (log ++ [call; call], Resolved tx).
Proof.
  intros Ht Hs Hr Hf call Htx. unfold createFlow. run_M.
  rewrite Ht, Hs, Hr, Hf. simpl. rewrite Htx. simpl.
  by rewrite ?Htx, <-app_assoc.
Qed.

Lemma createFlow_twice_sends_twice_witness :
  (createFlow (ledger []) "T" "0xA" "0xB" "385802469135"
     ≫= λ _, createFlow (ledger []) "T" "0xA" "0xB" "385802469135") []
  = ([CallAgreement "0xCFA" "createFlow(T,0xB,385802469135,0x)" "0xA";
      CallAgreement "0xCFA" "createFlow(T,0xB,385802469135,0x)" "0xA"],
     Resolved "tx from 0xA").
Proof.
  exact (createFlow_twice_sends_twice (ledger []) "T" "0xA" "0xB" "385802469135"
           "T" "0xA" "0xB" "385802469135" "tx from 0xA" []
           eq_refl eq_refl eq_refl eq_refl eq_refl).
Defined.

(** X17: [getNetFlow] sends at most one read, for the normalized token
    and account, and its result is the ledger's answer as it is, value or
    rejection; it sends nothing exactly when a normalizer rejects, and then
    rejects with the first rejection. *)
Theorem getNetFlow_passes_through sf superToken account log :
  ∃ sent,
    (getNetFlow sf superToken account log).1 = log ++ sent
    ∧ (∀ q, q ∈ sent →
         sent = [q]
         ∧ ∃ t a,
             normalizeTokenParam sf superToken = Resolved t
             ∧ normalizeAddressParam sf account = Resolved a
             ∧ q = GetNetFlow t a
             ∧ (getNetFlow sf superToken account log).2 = cfa_getNetFlow sf t a)
    ∧ (sent = [] →
         ∃ reason,
           firstRejected [normalizeTokenParam sf superToken;
                          normalizeAddressParam sf account] = Some reason
           ∧ (getNetFlow sf superToken account log).2 = Rejected reason).
Proof.
  unfold getNetFlow. run_cases sf;
    try (exists []; rewrite app_nil_r; split_and!;
         [done|by intros q ?%elem_of_nil|by eexists]).
  eexists [_]. split_and!; [done| |done].
  intros q ->%list_elem_of_singleton. split; [done|]. by do 2 eexists.
Qed.

(** X14: [getFlow] sends at most one read, for the normalized token,
    sender and receiver.  A resolved answer is returned sanitized, a
    rejected one is passed on with its reason; nothing is sent exactly when
    a normalizer rejects, and the first rejection is then the result. *)
Theorem getFlow_one_read sf superToken sender receiver log :
  ∃ sent,
    (getFlow sf superToken sender receiver log).1 = log ++ sent
    ∧ (∀ q, q ∈ sent →
         sent = [q]
         ∧ ∃ t s r,
             normalizeTokenParam sf superToken = Resolved t
             ∧ normalizeAddressParam sf sender = Resolved s
             ∧ normalizeAddressParam sf receiver = Resolved r
             ∧ q = GetFlow t s r
             ∧ (∀ raw, cfa_getFlow sf t s r = Resolved raw →
                  (getFlow sf superToken sender receiver log).2
                  = Resolved (sanitize raw))
             ∧ (∀ reason, cfa_getFlow sf t s r = Rejected reason →
                  (getFlow sf superToken sender receiver log).2
                  = Rejected reason))
    ∧ (sent = [] →
         ∃ reason,
           firstRejected [normalizeTokenParam sf superToken;
                          normalizeAddressParam sf sender;
                          normalizeAddressParam sf receiver] = Some reason
           ∧ (getFlow sf superToken sender receiver log).2 = Rejected reason).
Proof.
  unfold getFlow. run_M.
  destruct (normalizeTokenParam sf superToken) as [t|e] eqn:Ht; simpl;
    [|exists []; rewrite app_nil_r; split_and!;
       [done|by intros q ?%elem_of_nil|by eexists]].
  destruct (normalizeAddressParam sf sender) as [s|e] eqn:Hs; simpl;
    [|exists []; rewrite app_nil_r; split_and!;
       [done|by intros q ?%elem_of_nil|by eexists]].
  destruct (normalizeAddressParam sf receiver) as [r|e] eqn:Hr; simpl;
    [|exists []; rewrite app_nil_r; split_and!;
       [done|by intros q ?%elem_of_nil|by eexists]].
  destruct (cfa_getFlow sf t s r) as [raw|reason] eqn:Hraw; simpl;
    (eexists [_]; split_and!; [done| |done];
     intros q ->%list_elem_of_singleton; split; [done|];
     exists t, s, r; rewrite Hraw; split_and!; try done; by intros ? [= <-]).
Qed.

(** X15: a raw timestamp more than 8.64e12 seconds from the epoch gives
    an invalid date; the three amounts are rendered all the same. *)
Theorem sanitize_timestamp_out_of_range (raw : Raw.t) :
  (8640000000000 < Z.abs (Raw.timestamp raw))%Z →
  sanitize raw
  = Info.mk Date.Invalid (BN.toString (Raw.flowRate raw))
      (BN.toString (Raw.deposit raw)) (BN.toString (Raw.owedDeposit raw)).
Proof.
  intros Hts. unfold sanitize. rewrite timestamp_date.
  unfold Date.ofSeconds, Date.new. by rewrite decide_False by lia.
Qed.

Lemma sanitize_timestamp_out_of_range_witness :
  sanitize (Raw.mk 8640000000001%Z 5%Z 10%Z 0%Z)
  = Info.mk Date.Invalid "5" "10" "0".
Proof.
  exact (sanitize_timestamp_out_of_range (Raw.mk 8640000000001%Z 5%Z 10%Z 0%Z)
           ltac:(vm_compute; reflexivity)).
Defined.

(** X16: sanitizing loses nothing.  For a timestamp a date can hold, the
    raw answer is read back from the sanitized one, so two such raw
    answers with the same sanitized form are equal. *)
Theorem sanitize_loses_nothing (raw : Raw.t) :
  (Z.abs (Raw.timestamp raw) ≤ 8640000000000)%Z →
  unsanitize (sanitize raw) = Some raw
  ∧ ∀ raw', (Z.abs (Raw.timestamp raw') ≤ 8640000000000)%Z →
      sanitize raw' = sanitize raw → raw' = raw.
Proof.
  assert (∀ r, (Z.abs (Raw.timestamp r) ≤ 8640000000000)%Z →
            unsanitize (sanitize r) = Some r) as Hback.
  { intros r Hr. unfold unsanitize, sanitize. simpl.
    rewrite timestamp_date, ofSeconds_valid, !decimal_toString by done.
    rewrite Z.div_mul by done. by destruct r. }
  intros Hts. split; [by apply Hback|].
  intros raw' Hts' Heq. apply (f_equal unsanitize) in Heq.
  rewrite !Hback in Heq by done. by injection Heq.
Qed.

Lemma sanitize_loses_nothing_witness :
  unsanitize (sanitize (Raw.mk 1600000000%Z (-7)%Z 1111111111104000%Z 0%Z))
  = Some (Raw.mk 1600000000%Z (-7)%Z 1111111111104000%Z 0%Z).
Proof.
  exact (proj1 (sanitize_loses_nothing
                  (Raw.mk 1600000000%Z (-7)%Z 1111111111104000%Z 0%Z)
                  ltac:(vm_compute; discriminate))).
Defined.
(** X18: the requests of [listFlows].  Whatever the ledger answers, the
    requests sent are an initial part of: the fetch of the events received
    by the normalized account, then the fetch of the events sent by it,
    each for the normalized token over the whole history and each only if
    its direction is wanted; a run that resolves has sent them all. *)
Theorem listFlows_requests sf superToken account onlyIn onlyOut t a log :
  normalizeTokenParam sf superToken = Resolved t →
  normalizeAddressParam sf account = Resolved a →
  ∃ sent,
    (listFlows sf superToken account onlyIn onlyOut log).1 = log ++ sent
    ∧ sent `prefix_of` fetches onlyIn onlyOut t a
    ∧ (∀ r, (listFlows sf superToken account onlyIn onlyOut log).2 = Resolved r →
         sent = fetches onlyIn onlyOut t a).
Proof.
  intros Ht Ha. unfold listFlows, fetches. run_M. rewrite Ht, Ha. simpl.
  destruct onlyOut, onlyIn; simpl;
    repeat match goal with
    | |- context [cfa_getPastEvents sf ?n ?o] =>
        destruct (cfa_getPastEvents sf n o) eqn:?; simpl
    end;
    try (exists []; rewrite app_nil_r; split_and!;
         [done|apply prefix_nil|done]);
    try (eexists [_]; split_and!; [done| |done];
         first [done | by eexists [_]]);
    try (eexists [_; _]; rewrite <-app_assoc; split_and!; done).
Qed.

Lemma listFlows_requests_witness :
  (listFlows (framework Resolved Resolved outboundDown) "T" "A" false false []).1
  = [GetPastEvents "FlowUpdated" (inOptions "T" "A");
     GetPastEvents "FlowUpdated" (outOptions "T" "A")].
Proof.
  destruct (listFlows_requests (framework Resolved Resolved outboundDown)
              "T" "A" false false "T" "A" [] eq_refl eq_refl)
    as (sent & Hrun & _ & _).
  rewrite Hrun. vm_compute in Hrun. by rewrite <-Hrun.
Defined.

(** X19: [listFlows] fails as a whole.  When the inbound fetch rejects,
    the outbound fetch is not sent and the rejection is the result; when
    the outbound fetch rejects, the rejection is the result and the
    inbound flows already computed are not returned. *)
Theorem listFlows_fails_whole sf superToken account onlyIn onlyOut t a log :
  normalizeTokenParam sf superToken = Resolved t →
  normalizeAddressParam sf account = Resolved a →
  (∀ reason, onlyOut = false →
     cfa_getPastEvents sf "FlowUpdated" (inOptions t a) = Rejected reason →
     listFlows sf superToken account onlyIn onlyOut log
     = (log ++ [GetPastEvents "FlowUpdated" (inOptions t a)], Rejected reason))
  ∧ (∀ reason inB, onlyIn = false →
       (onlyOut = false →
          cfa_getPastEvents sf "FlowUpdated" (inOptions t a) = Resolved inB) →
       cfa_getPastEvents sf "FlowUpdated" (outOptions t a) = Rejected reason →
       listFlows sf superToken account onlyIn onlyOut log
       = (log ++ fetches onlyIn onlyOut t a, Rejected reason)).
Proof.
  intros Ht Ha. unfold listFlows, fetches. split.
  - intros reason -> Hin. run_M. by rewrite Ht, Ha, Hin.
  - intros reason inB -> Hin Hout. run_M. rewrite Ht, Ha. simpl.
    destruct onlyOut; simpl.
    + by rewrite Hout.
    + rewrite (Hin eq_refl). simpl. by rewrite Hout, <-app_assoc.
Qed.

Lemma listFlows_fails_whole_witness :
  listFlows (framework Resolved Resolved (λ _, Rejected "timeout"))
    "T" "A" false false []
  = ([GetPastEvents "FlowUpdated" (inOptions "T" "A")], Rejected "timeout")
  ∧ listFlows (framework Resolved Resolved outboundDown) "T" "A" false false []
    = ([GetPastEvents "FlowUpdated" (inOptions "T" "A");
        GetPastEvents "FlowUpdated" (outOptions "T" "A")], Rejected "timeout").
Proof.
  split.
  - exact (proj1 (listFlows_fails_whole
                    (framework Resolved Resolved (λ _, Rejected "timeout"))
                    "T" "A" false false "T" "A" [] eq_refl eq_refl)
             "timeout" eq_refl eq_refl).
  - exact (proj2 (listFlows_fails_whole
                    (framework Resolved Resolved outboundDown)
                    "T" "A" false false "T" "A" [] eq_refl eq_refl)
             "timeout" _ eq_refl (λ _, eq_refl) eq_refl).
Defined.

(** X20: the flags only suppress.  The run for both directions returns
    the [inFlows] of the inbound-only run and the [outFlows] of the
    outbound-only run, and sends the requests of the one followed by those
    of the other. *)
Theorem listFlows_flags_only_suppress sf superToken account t a inB outB log :
  normalizeTokenParam sf superToken = Resolved t →
  normalizeAddressParam sf account = Resolved a →
  cfa_getPastEvents sf "FlowUpdated" (inOptions t a) = Resolved inB →
  cfa_getPastEvents sf "FlowUpdated" (outOptions t a) = Resolved outB →
  ∃ rIn rOut,
    (listFlows sf superToken account true false log).2 = Resolved rIn
    ∧ (listFlows sf superToken account false true log).2 = Resolved rOut
    ∧ (listFlows sf superToken account false false log).2
      = Resolved (Listing.mk (Listing.inFlows rIn) (Listing.outFlows rOut))
    ∧ (listFlows sf superToken account false false log).1
      = log ++ ((listFlows sf superToken account true false []).1
                ++ (listFlows sf superToken account false true []).1).
Proof.
  intros Ht Ha Hin Hout.
  rewrite (listFlows_resolved sf superToken account true false t a inB outB log),
    (listFlows_resolved sf superToken account false true t a inB outB log),
    (listFlows_resolved sf superToken account false false t a inB outB log),
    (listFlows_resolved sf superToken account true false t a inB outB []),
    (listFlows_resolved sf superToken account false true t a inB outB [])
    by done.
  do 2 eexists. by simpl.
Qed.

Lemma listFlows_flags_only_suppress_witness :
  (listFlows (ledger demoLog) "T" "A" false false []).2
  = Resolved (Listing.mk
      (Some [Flow.mk "C" "A" "9"; Flow.mk "A" "A" "2"; Flow.mk "D" "A" "4"])
      (Some [Flow.mk "A" "A" "2"])).
Proof.
  destruct (listFlows_flags_only_suppress (ledger demoLog) "T" "A" "T" "A"
              _ _ [] eq_refl eq_refl eq_refl eq_refl)
    as (rIn & rOut & HrIn & HrOut & Hboth & _).
  rewrite Hboth. vm_compute in HrIn, HrOut.
  injection HrIn as <-. by injection HrOut as <-.
Defined.

(** X21: every entry of [inFlows] and of [outFlows] is the projection of
    an event of the fetched batch, the last one of its grouping key, with a
    rate that is not zero and that the entry's [flowRate] numeral reads
    back to. *)
Theorem listFlows_entries_come_from_events
    sf superToken account onlyIn onlyOut t a inB outB log :
  normalizeTokenParam sf superToken = Resolved t →
  normalizeAddressParam sf account = Resolved a →
  (onlyOut = false →
     cfa_getPastEvents sf "FlowUpdated" (inOptions t a) = Resolved inB) →
  (onlyIn = false →
     cfa_getPastEvents sf "FlowUpdated" (outOptions t a) = Resolved outB) →
  ∃ r,
    (listFlows sf superToken account onlyIn onlyOut log).2 = Resolved r
    ∧ (∀ ins f, Listing.inFlows r = Some ins → f ∈ ins →
         ∃ e, lastWith (flowKey e) inB = Some e ∧ f = toFlow e
              ∧ flowRate (args e) ≠ 0%Z
              ∧ JS.decimal (Flow.flowRate f) = Some (flowRate (args e)))
    ∧ (∀ outs f, Listing.outFlows r = Some outs → f ∈ outs →
         ∃ e, lastWith (flowKey e) outB = Some e ∧ f = toFlow e
              ∧ flowRate (args e) ≠ 0%Z
              ∧ JS.decimal (Flow.flowRate f) = Some (flowRate (args e))).
Proof.
  intros Ht Ha Hin Hout.
  rewrite (listFlows_resolved sf superToken account onlyIn onlyOut
             t a inB outB log) by done.
  assert (∀ batch f, f ∈ toFlow <$> getLatestFlows batch →
            ∃ e, lastWith (flowKey e) batch = Some e ∧ f = toFlow e
                 ∧ flowRate (args e) ≠ 0%Z
                 ∧ JS.decimal (Flow.flowRate f) = Some (flowRate (args e)))
    as Hentry.
  { intros batch f (e & -> & He)%list_elem_of_fmap. exists e.
    apply elem_of_getLatestFlows in He as [Hw Hopen].
    rewrite winner_last in Hw. apply isOpen_rate in Hopen.
    split_and!; try done. apply decimal_toString. }
  eexists. split; [done|]. simpl. split.
  - intros ins f Hins. destruct onlyOut; [done|]. injection Hins as <-. apply Hentry.
  - intros outs f Houts. destruct onlyIn; [done|]. injection Houts as <-. apply Hentry.
Qed.

Lemma listFlows_entries_come_from_events_witness :
  ∃ e, lastWith (flowKey e) (filter (matches (Filter.mk "T" None (Some "A"))) demoLog)
         = Some e
       ∧ Flow.mk "C" "A" "9" = toFlow e.
Proof.
  destruct (listFlows_entries_come_from_events (ledger demoLog) "T" "A"
              false false "T" "A" _ _ [] eq_refl eq_refl
              (λ _, eq_refl) (λ _, eq_refl))
    as (r & Hrun & Hins & _).
  vm_compute in Hrun. injection Hrun as <-.
  destruct (Hins _ (Flow.mk "C" "A" "9") eq_refl) as (e & Hlast & Hf & _).
  { left. }
  by exists e.
Defined.

(** X8: the reduction returns the reference it was given, allocates
    nothing, leaves every other object of the store as it was, and leaves
    in its accumulator that object with the batch stored into it. *)
Theorem reduce_touches_only_its_accumulator flows acc h :
  (Store.reduce flows acc h).1 = acc
  ∧ length (Store.reduce flows acc h).2 = length h
  ∧ (∀ ref, ref ≠ acc → (Store.reduce flows acc h).2 !! ref = h !! ref)
  ∧ (Store.reduce flows acc h).2 !! acc = (λ o, reduceInto o flows) <$> h !! acc.
Proof.
  revert h. induction flows as [|i flows IH]; intros h.
  - cbn [Store.reduce]. unfold Store.ret. cbn [fst snd].
    split_and!; try done. by destruct (h !! acc).
  - change (Store.reduce (i :: flows) acc h)
      with (Store.reduce flows acc (alter (JS.set (flowKey i) i) acc h)).
    destruct (IH (alter (JS.set (flowKey i) i) acc h)) as (Hret & Hlen & Hother & Hacc).
    split_and!.
    + done.
    + by rewrite Hlen, length_alter.
    + intros ref Hne. rewrite Hother by done.
      apply list_lookup_alter_ne. by intros ->.
    + rewrite Hacc, list_lookup_alter_eq. by destruct (h !! acc).
Qed.
